(** * FinanceFlow icon generator: a shallow embedding of
      [assets/generate_icon.py] and the properties of its renderer.

    The script draws a 30-layer radial gradient and a tapered sine-shaped
    stroke with Pillow and saves the result as a PNG.  Its arithmetic is
    Python [float] arithmetic (IEEE-754 binary64); the drawing calls go to
    Pillow's [ImageDraw.ellipse]; the trigonometry goes to the C library.

    - [B64]: binary64 values as rationals, every operation followed by
      round-to-nearest-even, written out.
    - [Libm]: a fixed-point Taylor reference for sine and cosine, against
      which the accuracy of the platform's [math.sin]/[math.cos] is stated.
    - [PIL], [OS]: the image object, [Image.new], [ImageDraw.ellipse], and a
      small file system with [os.makedirs], [Image.save], [shutil.copy2].
    - Section [Script]: [generate_icon], [draw_elegant_curve] and the entry
      point, line by line. *)

From stdpp Require Import gmap strings list pretty.
From Stdlib Require Import ZArith QArith Qround Qabs Qpower Qreduction Lqa Lia.
From Stdlib Require Import Floats.

Local Open Scope Z_scope.

(** ** Binary64 arithmetic *)

Module B64.

(** A finite binary64 value is a rational [m * 2^e] with [|m| < 2^53] and
    [e >= -1074].  Python's [float] operations compute the exact result and
    round it to the nearest such value, ties to the even significand.
    Overflow to infinity (results of magnitude [2^1024] and above) is outside
    this model: no quantity of the script comes near it for a size that
    [Image.new] accepts. *)

Definition emin : Z := -1074.

Definition pow2 (e : Z) : Q := (2 ^ e)%Q.

(** [Qlog2 q] is [floor (log2 q)] for a positive rational [q]. *)
Definition Qlog2 (q : Q) : Z :=
  let l := Z.log2 (Qnum q) - Z.log2 (Zpos (Qden q)) in
  if Qle_bool (pow2 l) q then l else l - 1.

(** Round a rational to the nearest integer, ties to even. *)
Definition rne (q : Q) : Z :=
  let f := Qfloor q in
  match Qcompare (q - inject_Z f) (1 # 2) with
  | Lt => f
  | Gt => f + 1
  | Eq => if Z.even f then f else f + 1
  end.

(** Exponent of the unit in the last place of a positive [q]: 53 significant
    bits, or the subnormal spacing [2^-1074]. *)
Definition ulp_exp (q : Q) : Z := Z.max (Qlog2 q - 52) emin.

Definition round_pos (q : Q) : Q :=
  let e := ulp_exp q in (inject_Z (rne (q / pow2 e)) * pow2 e)%Q.

(** Round-to-nearest-even onto binary64; the result is in lowest terms, so
    equal values are equal terms. *)
Definition rnd (q : Q) : Q :=
  match Qnum q with
  | Z0 => 0%Q
  | Zpos _ => Qred (round_pos q)
  | Zneg _ => Qred (- round_pos (- q))
  end.

Definition fadd (x y : Q) : Q := rnd (x + y).
Definition fsub (x y : Q) : Q := rnd (x - y).
Definition fmul (x y : Q) : Q := rnd (x * y).
Definition fdiv (x y : Q) : Q := rnd (x / y).

(** [float(n)] for a Python [int]. *)
Definition of_int (n : Z) : Q := rnd (inject_Z n).

(** [a / b] on two Python [int]s: the correctly rounded quotient. *)
Definition int_truediv (a b : Z) : Q := rnd (inject_Z a / inject_Z b).

(** [int(x)]: truncation toward zero. *)
Definition to_int (x : Q) : Z := Z.quot (Qnum x) (Zpos (Qden x)).

(** [x < y] and [x > y] on floats (and on a float and an [int], which Python
    compares exactly). *)
Definition flt (x y : Q) : bool := negb (Qle_bool y x).
Definition fgt (x y : Q) : bool := negb (Qle_bool x y).

(** [math.sqrt] on a non-negative float: correctly rounded. *)
Definition fsqrt (x : Q) : Q :=
  match Qnum x with
  | Zpos _ =>
      let e := Z.max (Qlog2 x / 2 - 52) emin in
      let r := (x / pow2 (2 * e))%Q in
      let f := Z.sqrt (Qfloor r) in
      let h := (inject_Z f + (1 # 2))%Q in
      let m := match Qcompare r (h * h) with
               | Lt => f
               | Gt => f + 1
               | Eq => if Z.even f then f else f + 1
               end in
      Qred (inject_Z m * pow2 e)
  | _ => 0%Q
  end.

(** The value of a kernel float, for comparing this model with the
    machine's binary64, and the kernel float of a small integer. *)
Definition of_prim (f : PrimFloat.float) : option Q :=
  match Prim2SF f with
  | S754_zero _ => Some 0%Q
  | S754_finite s m e =>
      Some (Qred (inject_Z (if s then Zneg m else Zpos m) * pow2 e))
  | _ => None
  end.

Definition same_value (f : PrimFloat.float) (q : Q) : bool :=
  match of_prim f with
  | Some v => Z.eqb (Qnum v) (Qnum q) && Pos.eqb (Qden v) (Qden q)
  | None => false
  end.

Definition prim_of_int (z : Z) : PrimFloat.float := PrimFloat.of_uint63 (Uint63.of_Z z).

End B64.

Import B64.

(** ** The C library's sine and cosine *)

Module Libm.

(** [math.pi], the binary64 nearest to pi: [0x1.921fb54442d18p+1]. *)
Definition pi : Q := (884279719003555 # 281474976710656)%Q.

(** Fixed-point reference: Taylor sums with 80 fractional bits.  [term] and
    [acc] hold values scaled by [2^80]; [k] is the degree of [term]. *)
Definition FX : Z := 2 ^ 80.

Fixpoint taylor (n : nat) (k : Z) (term acc x2 : Z) : Z :=
  match n with
  | O => acc
  | S n' =>
      let term' := - (term * x2 / FX) / ((k + 1) * (k + 2)) in
      taylor n' (k + 2) term' (acc + term') x2
  end.

Definition sin_ref (x : Q) : Q :=
  let xf := Qfloor (x * inject_Z FX) in
  Qred (Qmake (taylor 40 1 xf xf (xf * xf / FX)) (Z.to_pos FX)).

Definition cos_ref (x : Q) : Q :=
  let xf := Qfloor (x * inject_Z FX) in
  Qred (Qmake (taylor 40 0 FX FX (xf * xf / FX)) (Z.to_pos FX)).

(** Accuracy allowed to the platform's functions: [2^-51], four units in the
    last place of a result in [[1/2, 1]]. *)
Definition eps : Q := (1 # 2251799813685248)%Q.

(** The model instance: the reference, rounded to binary64. *)
Definition sin_model (x : Q) : Q := rnd (sin_ref x).
Definition cos_model (x : Q) : Q := rnd (cos_ref x).

End Libm.

(** ** Pillow *)

Module PIL.

Inductive mode := L | RGB | RGBA.



Definition rgb : Type := Z * Z * Z.

Definition white : rgb := (255, 255, 255).

Definition box : Type := Z * Z * Z * Z.

Record image := Image {
  im_mode : mode;
  im_width : Z;
  im_height : Z;
  im_px : Z -> Z -> rgb
}.

Inductive exn := ValueError | OverflowError | FileNotFoundError | NotADirectoryError.

Definition INT_MAX : Z := 2147483647.

(** [Image.new(mode, (w, h), color)]: negative sizes are refused by
    [_check_size]; sizes that do not fit a C [int] by the C constructor
    (memory limits aside). *)
Definition Image_new (m : mode) (size : Z * Z) (color : rgb) : exn + image :=
  let '(w, h) := size in
  if (w <? 0) || (h <? 0) then inl ValueError
  else if (INT_MAX <? w) || (INT_MAX <? h) then inl OverflowError
  else inr (Image m w h (fun _ _ => color)).

Definition in_image (img : image) (x y : Z) : bool :=
  (0 <=? x) && (x <? im_width img) && (0 <=? y) && (y <? im_height img).

(** What [ImageDraw.ellipse] may paint at most: the pixels of the ellipse
    inscribed in the bounding box grown by one pixel on every side. *)
Definition near_ellipse (b : box) (x y : Z) : bool :=
  let '(x0, y0, x1, y1) := b in
  let w := x1 - x0 + 2 in
  let h := y1 - y0 + 2 in
  ((2 * x - x0 - x1) * h) ^ 2 + ((2 * y - y0 - y1) * w) ^ 2 <=? (w * h) ^ 2.

End PIL.

Import PIL.

(** ** The operating system *)

Module OS.

(** Absolute paths as lists of components. *)
Definition path : Type := list string.

Definition path_str (p : path) : string :=
  foldr (fun c acc => "/" +:+ c +:+ acc) "" p.



Record world := World {
  dirs : gset path;
  files : gmap path image;
  stdout : list string
}.

(** The file system is idealised: creating a directory and writing into an
    existing directory succeed (no permissions, quotas or full disks); what
    can fail is a write below a path that is no directory and a copy from a
    missing file.  Computations read and write the world and may raise. *)
Definition M (A : Type) : Type := world -> (exn + A) * world.

Definition ret {A} (a : A) : M A := fun w => (inr a, w).

Definition bind {A B} (m : M A) (k : A -> M B) : M B :=
  fun w => match m w with
           | (inr a, w') => k a w'
           | (inl e, w') => (inl e, w')
           end.

Definition lift {A} (r : exn + A) : M A := fun w => (r, w).

Definition print (s : string) : M unit :=
  fun w => (inr tt, World (dirs w) (files w) (stdout w ++ [s])).

(** A path and all its ancestors, the root included. *)
Definition prefixes (p : path) : list path :=
  map (fun n => take n p) (seq 0 (S (length p))).

(** [os.makedirs(p, exist_ok=True)]. *)
Definition makedirs (p : path) : M unit :=
  fun w => (inr tt, World (dirs w ∪ list_to_set (prefixes p)) (files w) (stdout w)).


(** Writing a file needs its directory. *)
Definition write_file (p : path) (content : image) : M unit :=
  fun w => if bool_decide (removelast p ∈ dirs w)
           then (inr tt, World (dirs w) (<[p := content]> (files w)) (stdout w))
           else if bool_decide (is_Some (files w !! removelast p))
           then (inl NotADirectoryError, w)
           else (inl FileNotFoundError, w).

(** [img.save(p, 'PNG')]. *)
Definition save (img : image) (p : path) : M unit := write_file p img.



End OS.

Import OS.

Notation "'do' x <- m ; k" := (OS.bind m (fun x => k))
  (at level 10, x name, m at level 100, k at level 200, only parsing).
Notation "'exec' m ; k" := (OS.bind m (fun _ => k))
  (at level 10, m at level 100, k at level 200, only parsing).

(** ** The script *)

Section Script.

(** The platform: [math.sin] and [math.cos] of the C library, and the set
    of pixels that Pillow's [ImageDraw.ellipse] paints for a bounding box. *)
Variable sin cos : Q -> Q.
Variable painted : box -> Z -> Z -> bool.

(** [draw.ellipse(b, fill=c)] on the canvas. *)
Definition ellipse (img : image) (b : box) (c : rgb) : image :=
  Image (im_mode img) (im_width img) (im_height img)
        (fun x y => if in_image img x y && painted b x y then c else im_px img x y).

(** The drawing calls of a loop, applied to the canvas in program order. *)
Definition draw_all (img : image) (calls : list (box * rgb)) : image :=
  fold_left (fun im call => ellipse im (fst call) (snd call)) calls img.

(** *** Float literals of the source *)

Definition c072 : Q := rnd (72 # 100).
Definition c06 : Q := rnd (6 # 10).
Definition c08 : Q := rnd (8 # 10).
Definition c03 : Q := rnd (3 # 10).
Definition c02 : Q := rnd (2 # 10).
Definition c12 : Q := rnd (12 # 10).
Definition c11 : Q := rnd (11 # 10).
Definition c1024 : Q := 1024%Q.

(** *** [generate_icon], lines 24-53 *)

Definition scale (size : Z) : Q := fdiv (of_int size) c1024.
Definition center (size : Z) : Z := size / 2.
Definition max_radius (size : Z) : Z := to_int (fmul (of_int size) c072).
Definition num_layers : Z := 30.

Definition layer_radius (size i : Z) : Z :=
  to_int (fmul (of_int (max_radius size))
               (fsub (of_int 1) (int_truediv i num_layers))).

Definition layer_color (i : Z) : rgb :=
  let ratio := int_truediv i num_layers in
  let r := to_int (fadd (of_int 99) (fmul (of_int (139 - 99)) ratio)) in
  let g := to_int (fadd (of_int 102) (fmul (of_int (92 - 102)) ratio)) in
  let b := to_int (fadd (of_int 241) (fmul (of_int (246 - 241)) ratio)) in
  (r, g, b).

Definition layer_box (size i : Z) : box :=
  let c := center size in
  let radius := layer_radius size i in
  (c - radius, c - radius, c + radius, c + radius).

(** The loop over [range(num_layers)], with its [break]. *)
Fixpoint background_loop (size : Z) (layers : list Z) : list (box * rgb) :=
  match layers with
  | [] => []
  | i :: rest =>
      if layer_radius size i <=? 0 then []
      else (layer_box size i, layer_color i) :: background_loop size rest
  end.

Definition background (size : Z) : list (box * rgb) :=
  background_loop size (seqZ 0 num_layers).

Definition line_width (size : Z) : Z := to_int (fmul (of_int 16) (scale size)).

(** *** [draw_elegant_curve], lines 57-81: the sample points *)

Definition num_points : Z := 150.
Definition start_x : Z := 200.
Definition start_y : Z := 750.
Definition end_x : Z := 800.
Definition end_y : Z := 250.
Definition wave_amplitude : Z := 80.
Definition wave_frequency : Q := c12.

Definition param (i : Z) : Q := int_truediv i num_points.

Definition base_x (t : Q) : Q := fadd (of_int start_x) (fmul (of_int (end_x - start_x)) t).
Definition base_y (t : Q) : Q := fadd (of_int start_y) (fmul (of_int (end_y - start_y)) t).

Definition sin_arg (t : Q) : Q := fmul (fmul t Libm.pi) wave_frequency.
Definition cos_arg (t : Q) : Q := fmul (fmul (fmul t Libm.pi) wave_frequency) c11.

Definition offset_x (t : Q) : Q :=
  fmul (fmul (of_int wave_amplitude) (sin (sin_arg t)))
       (fsub (of_int 1) (fmul t c03)).

Definition offset_y (t : Q) : Q :=
  fmul (fmul (fmul (of_int wave_amplitude) c06) (cos (cos_arg t)))
       (fsub (of_int 1) (fmul t c02)).

Definition curve_point (size i : Z) : Z * Z :=
  let t := param i in
  let x := to_int (fmul (fadd (base_x t) (offset_x t)) (scale size)) in
  let y := to_int (fmul (fadd (base_y t) (offset_y t)) (scale size)) in
  (x, y).

(** [points = []], then [points.append((x, y))] for [i] in [range(150)]. *)
Definition points (size : Z) : list (Z * Z) :=
  fold_left (fun pts i => pts ++ [curve_point size i]) (seqZ 0 num_points) [].

(** *** Lines 84-97: a circle at every sample *)

Definition len (pts : list (Z * Z)) : Z := Z.of_nat (length pts).

(** [points[i]]; the loops only index below [len(points)]. *)
Definition item (pts : list (Z * Z)) (i : Z) : Z * Z := nth (Z.to_nat i) pts (0, 0).

Definition sample_width (size n i : Z) : Z :=
  if (i <? 10) || (n - 10 <? i) then to_int (fmul (of_int (line_width size)) c06)
  else if (i <? 20) || (n - 20 <? i) then to_int (fmul (of_int (line_width size)) c08)
  else line_width size.

Definition stroke_box (x y current_width : Z) : box :=
  (x - current_width / 2, y - current_width / 2,
   x + current_width / 2, y + current_width / 2).

Definition sample_circles (size : Z) (pts : list (Z * Z)) : list (box * rgb) :=
  map (fun i => let '(x, y) := item pts i in
                (stroke_box x y (sample_width size (len pts) i), white))
      (seqZ 0 (len pts)).

(** *** Lines 100-121: circles along every segment *)

Definition steps (p1 p2 : Z * Z) : Z :=
  let '(x1, y1) := p1 in
  let '(x2, y2) := p2 in
  Z.max (to_int (fdiv (fsqrt (of_int ((x2 - x1) ^ 2 + (y2 - y1) ^ 2))) (of_int 4))) 8.

Definition substep_width (size n i : Z) (t : Q) : Z :=
  let point_idx := fadd (of_int i) t in
  if flt point_idx (inject_Z 10) || fgt point_idx (inject_Z (n - 10))
  then to_int (fmul (of_int (line_width size)) c06)
  else if flt point_idx (inject_Z 20) || fgt point_idx (inject_Z (n - 20))
  then to_int (fmul (of_int (line_width size)) c08)
  else line_width size.

Definition substep_point (p1 p2 : Z * Z) (t : Q) : Z * Z :=
  let '(x1, y1) := p1 in
  let '(x2, y2) := p2 in
  (to_int (fadd (of_int x1) (fmul (of_int (x2 - x1)) t)),
   to_int (fadd (of_int y1) (fmul (of_int (y2 - y1)) t))).

Definition segment_circles (size : Z) (pts : list (Z * Z)) (i : Z) : list (box * rgb) :=
  let p1 := item pts i in
  let p2 := item pts (i + 1) in
  let n := steps p1 p2 in
  map (fun j => let t := int_truediv j n in
                let '(x, y) := substep_point p1 p2 t in
                (stroke_box x y (substep_width size (len pts) i t), white))
      (seqZ 1 (n - 1)).

Definition connect_circles (size : Z) (pts : list (Z * Z)) : list (box * rgb) :=
  flat_map (segment_circles size pts) (seqZ 0 (len pts - 1)).

Definition draw_elegant_curve (size : Z) : list (box * rgb) :=
  let pts := points size in
  sample_circles size pts ++ connect_circles size pts.

(** *** The canvas after line 124 *)

Definition base_fill : rgb := (99, 102, 241).

Definition render (img : image) (size : Z) : image :=
  draw_all (draw_all img (background size)) (draw_elegant_curve size).

(** *** [generate_icon], lines 18-131 *)

Definition icon_name (size : Z) : string :=
  "AppIcon-" +:+ pretty size +:+ "x" +:+ pretty size +:+ ".png".

Definition generate_icon (output_dir : path) (size : Z) : OS.M path :=
  exec makedirs output_dir;
  do img <- lift (Image_new RGB (size, size) base_fill);
  let img := render img size in
  let output_path := output_dir ++ [icon_name size] in
  exec save img output_path;
  exec print ("✓ Generated " +:+ path_str output_path +:+ " ("
               +:+ pretty size +:+ "x" +:+ pretty size +:+ ")");
  ret output_path.

(** *** The entry point, lines 133-153 *)


End Script.

(** ** Assumptions on the platform *)

Section Platform.

Variable sin cos : Q -> Q.
Variable painted : box -> Z -> Z -> bool.

(** The arguments at which the script calls [math.sin] and [math.cos]. *)
Notation sin_at i := (sin_arg (param i)) (only parsing).
Notation cos_at i := (cos_arg (param i)) (only parsing).

(** The C library returns [sin(0) = 0] and [cos(0) = 1] exactly (C99 F.9.1),
    and elsewhere a value within [Libm.eps] of the true one. *)
Definition libm_accurate : Prop :=
  (sin 0 == 0)%Q /\ (cos 0 == 1)%Q /\
  forall i, 1 <= i < num_points ->
    (Qabs (sin (sin_at i) - Libm.sin_ref (sin_at i)) <= Libm.eps)%Q /\
    (Qabs (cos (cos_at i) - Libm.cos_ref (cos_at i)) <= Libm.eps)%Q.

(** The weaker fact that sine and cosine stay in [[-1, 1]]. *)
Definition libm_range : Prop :=
  forall i, 0 <= i < num_points ->
    (-1 <= sin (sin_at i) <= 1)%Q /\ (-1 <= cos (cos_at i) <= 1)%Q.

(** Pillow paints no pixel outside [near_ellipse], and it paints the centre
    of a circle of radius at least one. *)
Definition paints_inside : Prop :=
  forall b x y, painted b x y = true -> near_ellipse b x y = true.

Definition paints_center : Prop :=
  forall c r, 1 <= r -> painted (c - r, c - r, c + r, c + r) c c = true.

End Platform.

(** ** The sample point as a function of the value the C library returns *)

Definition damp_x (t : Q) : Q := fsub (of_int 1) (fmul t c03).
Definition damp_y (t : Q) : Q := fsub (of_int 1) (fmul t c02).

(** [base_x + offset_x] and [base_y + offset_y] of sample [i], when
    [math.sin] returned [s] and [math.cos] returned [c]. *)
Definition vx_of (i : Z) (s : Q) : Q :=
  let t := param i in
  fadd (base_x t) (fmul (fmul (of_int wave_amplitude) s) (damp_x t)).

Definition vy_of (i : Z) (c : Q) : Q :=
  let t := param i in
  fadd (base_y t) (fmul (fmul (fmul (of_int wave_amplitude) c06) c) (damp_y t)).

Definition point_of (size i : Z) (s c : Q) : Z * Z :=
  (to_int (fmul (vx_of i s) (scale size)), to_int (fmul (vy_of i c) (scale size))).

(** The values within [Libm.eps] of the reference. *)
Notation sin_lo i := (Libm.sin_ref (sin_arg (param i)) - Libm.eps)%Q (only parsing).
Notation sin_hi i := (Libm.sin_ref (sin_arg (param i)) + Libm.eps)%Q (only parsing).
Notation cos_lo i := (Libm.cos_ref (cos_arg (param i)) - Libm.eps)%Q (only parsing).
Notation cos_hi i := (Libm.cos_ref (cos_arg (param i)) + Libm.eps)%Q (only parsing).

(** The samples are pinned at [size] when every value within [Libm.eps] of
    the reference gives the same pixel. *)
Notation pinned size :=
  (forallb (fun i => bool_decide (point_of size i (sin_lo i) (cos_lo i)
                                  = point_of size i (sin_hi i) (cos_hi i)))
           (seqZ 1 149)) (only parsing).

(** ** Definitions used in the statements *)

(** *** Runs *)

Definition after_makedirs (p : path) (w : world) : world :=
  World (dirs w ∪ list_to_set (prefixes p)) (files w) (stdout w).

Definition generated_message (output_path : path) (size : Z) : string :=
  "✓ Generated " +:+ path_str output_path +:+ " ("
     +:+ pretty size +:+ "x" +:+ pretty size +:+ ")".

Definition blank_1024 : image := Image RGB 1024 1024 (fun _ _ => base_fill).



(** *** Widths and radii *)

Definition width_06 (size : Z) : Z := to_int (fmul (of_int (line_width size)) c06).

Definition width_08 (size : Z) : Z := to_int (fmul (of_int (line_width size)) c08).

(** [1 - i / num_layers]. *)
Definition shrink (i : Z) : Q := fsub (of_int 1) (int_truediv i num_layers).

Definition radius_of (m i : Z) : Z := to_int (fmul (of_int m) (shrink i)).

(** The sample whose taper class the sub-steps of segment [i] take. *)
Definition class_sample (i : Z) : Z := if i <=? 129 then i else i + 1.

(** The width a linear interpolation between the two adjacent samples
    would give, in the idiom of lines 107-108. *)
Definition interpolated_width (w1 w2 : Z) (t : Q) : Z :=
  to_int (fadd (of_int w1) (fmul (of_int (w2 - w1)) t)).

Definition tiny : Q := 1 # 2147483648.

(** *** The sampler as the specification words it *)


Section SpecSampler.

Variable sin cos : Q -> Q.


End SpecSampler.

(** *** The drawing calls of the curve at size 1024, model platform *)

Definition model_curve : list (box * rgb) :=
  draw_elegant_curve Libm.sin_model Libm.cos_model 1024.

Definition box_inside (lo hi : Z) (b : box) : bool :=
  let '(x0, y0, x1, y1) := b in
  (lo <=? x0) && (x0 <=? x1) && (x1 <=? hi) && (lo <=? y0) && (y0 <=? y1) && (y1 <=? hi).

(** The pixels of claim C3: the centre and the four corners. *)
Definition off_corners (c : box * rgb) : bool :=
  negb (near_ellipse (fst c) 0 0) && negb (near_ellipse (fst c) 1023 0)
  && negb (near_ellipse (fst c) 0 1023) && negb (near_ellipse (fst c) 1023 1023).

Definition off_marks (c : box * rgb) : bool :=
  negb (near_ellipse (fst c) 512 512) && off_corners c.

Definition inner_layers : list (box * rgb) :=
  map (fun i => (layer_box 1024 i, layer_color i)) (seqZ 1 28).

(** *** The background loop and the colours *)

(** The drawing call of layer [i], and the test that lets the loop go on. *)
Definition layer_call (size i : Z) : box * rgb := (layer_box size i, layer_color i).

Definition layer_drawn (size i : Z) : bool := 0 <? layer_radius size i.

(** The colours the script passes to Pillow. *)
Definition palette (c : rgb) : Prop :=
  c = base_fill \/ c = white \/ exists i, 0 <= i < num_layers /\ c = layer_color i.

(** ** Facts about binary64 rounding *)

Module B64Facts.

Local Open Scope Q_scope.

Lemma pow2_pos e : 0 < pow2 e.
Proof. apply Qpower_0_lt. reflexivity. Qed.

Lemma pow2_add a b : pow2 (a + b) == pow2 a * pow2 b.
Proof. apply Qpower_plus. discriminate. Qed.

Lemma pow2_sub a b : pow2 (a - b) == pow2 a / pow2 b.
Proof. apply Qpower_minus. discriminate. Qed.

Lemma pow2_lt a b : (a < b)%Z -> pow2 a < pow2 b.
Proof. intros. apply Qpower_lt_compat_l; [assumption|reflexivity]. Qed.

Lemma pow2_le a b : (a <= b)%Z -> pow2 a <= pow2 b.
Proof. intros. apply Qpower_le_compat_l; [assumption|discriminate]. Qed.

Lemma pow2_lt_inv a b : pow2 a < pow2 b -> (a < b)%Z.
Proof. intros. eapply Qpower_lt_compat_l_inv; [eassumption|reflexivity]. Qed.

Lemma pow2_Z e : (0 <= e)%Z -> pow2 e == inject_Z (2 ^ e).
Proof. intros. unfold pow2. rewrite Zpower_Qpower by assumption. reflexivity. Qed.

Lemma Qlog2_spec q : 0 < q -> pow2 (Qlog2 q) <= q /\ q < pow2 (Qlog2 q + 1).
Proof.
  intros Hq. destruct q as [a b]. unfold Qlog2. cbn [Qnum Qden].
  assert (Ha : (0 < a)%Z) by (unfold Qlt in Hq; cbn in Hq; lia).
  destruct (Z.log2_spec a Ha) as [Ha1 Ha2].
  destruct (Z.log2_spec (Zpos b) eq_refl) as [Hb1 Hb2].
  pose proof (Z.log2_nonneg a) as Hla. pose proof (Z.log2_nonneg (Zpos b)) as Hlb.
  set (la := Z.log2 a) in *. set (lb := Z.log2 (Zpos b)) in *.
  assert (HA1 : pow2 la <= inject_Z a) by (rewrite pow2_Z by lia; rewrite <- Zle_Qle; lia).
  assert (HA2 : inject_Z a < pow2 (la + 1)) by (rewrite pow2_Z by lia; rewrite <- Zlt_Qlt; lia).
  assert (HB1 : pow2 lb <= inject_Z (Zpos b)) by (rewrite pow2_Z by lia; rewrite <- Zle_Qle; lia).
  assert (HB2 : inject_Z (Zpos b) < pow2 (lb + 1)) by (rewrite pow2_Z by lia; rewrite <- Zlt_Qlt; lia).
  assert (HB0 : 0 < inject_Z (Zpos b)) by reflexivity.
  assert (Hq' : a # b == inject_Z a / inject_Z (Zpos b)) by apply Qmake_Qdiv.
  pose proof (pow2_pos lb) as Plb. pose proof (pow2_pos (lb + 1)) as Plb1.
  assert (HqB : (a # b) * inject_Z (Zpos b) == inject_Z a).
  { rewrite Hq'. field. discriminate. }
  clear Hq'.
  destruct (Qle_bool (pow2 (la - lb)) (a # b)) eqn:E.
  - apply Qle_bool_iff in E. split; [exact E|].
    assert (K : pow2 (la - lb + 1) * pow2 lb == pow2 (la + 1)).
    { rewrite <- pow2_add. replace (la - lb + 1 + lb)%Z with (la + 1)%Z by lia. reflexivity. }
    pose proof (pow2_pos (la - lb + 1)) as P1.
    apply (Qmult_lt_r _ _ (inject_Z (Zpos b)) HB0). rewrite HqB.
    apply Qlt_le_trans with (pow2 (la + 1)); [exact HA2|]. rewrite <- K.
    apply Qmult_le_l; [exact P1 | exact HB1].
  - assert (E' : a # b < pow2 (la - lb)).
    { apply Qnot_le_lt. intros C. apply Qle_bool_iff in C. congruence. }
    replace (la - lb - 1 + 1)%Z with (la - lb)%Z by lia. split; [|exact E'].
    assert (K : pow2 (la - lb - 1) * pow2 (lb + 1) == pow2 la).
    { rewrite <- pow2_add. replace (la - lb - 1 + (lb + 1))%Z with la by lia. reflexivity. }
    pose proof (pow2_pos (la - lb - 1)) as P1.
    apply (Qmult_le_r _ _ (inject_Z (Zpos b)) HB0). rewrite HqB.
    apply Qle_trans with (pow2 la); [|exact HA1]. rewrite <- K.
    apply Qmult_le_l; [exact P1 | apply Qlt_le_weak; exact HB2].
Qed.

Lemma Qlog2_unique q l : pow2 l <= q -> q < pow2 (l + 1) -> 0 < q -> Qlog2 q = l.
Proof.
  intros H1 H2 Hq. destruct (Qlog2_spec q Hq) as [S1 S2].
  assert (Qlog2 q < l + 1)%Z by (apply pow2_lt_inv; eapply Qle_lt_trans; eassumption).
  assert (l < Qlog2 q + 1)%Z by (apply pow2_lt_inv; eapply Qle_lt_trans; eassumption).
  lia.
Qed.

Lemma Qlog2_mono p q : 0 < p -> p <= q -> (Qlog2 p <= Qlog2 q)%Z.
Proof.
  intros Hp Hpq. assert (Hq : 0 < q) by (eapply Qlt_le_trans; eassumption).
  destruct (Qlog2_spec p Hp) as [S1 _]. destruct (Qlog2_spec q Hq) as [_ S2].
  assert (Qlog2 p < Qlog2 q + 1)%Z; [|lia].
  apply pow2_lt_inv. eapply Qle_lt_trans; [|exact S2]. eapply Qle_trans; eassumption.
Qed.

Lemma Qlog2_wd_pos p q : 0 < p -> p == q -> Qlog2 p = Qlog2 q.
Proof.
  intros Hp E. assert (Hq : 0 < q) by (rewrite <- E; exact Hp).
  destruct (Qlog2_spec q Hq) as [S1 S2].
  apply Qlog2_unique; rewrite ?E; assumption.
Qed.

Ltac qcmp H :=
  first [apply Qeq_alt in H | apply Qlt_alt in H | apply Qgt_alt in H].

Lemma rne_wd p q : p == q -> rne p = rne q.
Proof.
  intros E. unfold rne. rewrite (Qfloor_comp _ _ E).
  assert (C : Qcompare (p - inject_Z (Qfloor q)) (1 # 2) = Qcompare (q - inject_Z (Qfloor q)) (1 # 2))
    by (rewrite E; reflexivity).
  rewrite C. reflexivity.
Qed.

Lemma rne_bounds q : (Qfloor q <= rne q <= Qfloor q + 1)%Z.
Proof.
  unfold rne. destruct (Qcompare _ _); [destruct (Z.even _)| |]; lia.
Qed.

Lemma rne_Z z : rne (inject_Z z) = z.
Proof.
  unfold rne. rewrite Qfloor_Z.
  assert (C : Qcompare (inject_Z z - inject_Z z) (1 # 2) = Lt).
  { rewrite <- Qlt_alt. lra. }
  rewrite C. reflexivity.
Qed.

Lemma rne_mono p q : p <= q -> (rne p <= rne q)%Z.
Proof.
  intros Hpq. pose proof (Qfloor_resp_le _ _ Hpq) as Hf.
  pose proof (rne_bounds p) as Bp. pose proof (rne_bounds q) as Bq.
  destruct (Z.eq_dec (Qfloor p) (Qfloor q)) as [E|NE]; [|lia].
  unfold rne in *. rewrite E in *.
  set (f := Qfloor q) in *.
  destruct (Qcompare (p - inject_Z f) (1 # 2)) eqn:Cp;
  destruct (Qcompare (q - inject_Z f) (1 # 2)) eqn:Cq;
  try (destruct (Z.even f)); try lia; exfalso;
  qcmp Cp; qcmp Cq; lra.
Qed.

Lemma rne_le_Z q z : q <= inject_Z z -> (rne q <= z)%Z.
Proof. intros H. rewrite <- (rne_Z z). apply rne_mono, H. Qed.

Lemma rne_ge_Z q z : inject_Z z <= q -> (z <= rne q)%Z.
Proof. intros H. rewrite <- (rne_Z z). apply rne_mono, H. Qed.

Lemma ulp_exp_wd p q : 0 < p -> p == q -> ulp_exp p = ulp_exp q.
Proof. intros Hp E. unfold ulp_exp. rewrite (Qlog2_wd_pos p q Hp E). reflexivity. Qed.

Lemma ulp_exp_mono p q : 0 < p -> p <= q -> (ulp_exp p <= ulp_exp q)%Z.
Proof. intros Hp H. unfold ulp_exp. pose proof (Qlog2_mono p q Hp H). lia. Qed.

Lemma round_pos_wd p q : 0 < p -> p == q -> round_pos p == round_pos q.
Proof.
  intros Hp E. unfold round_pos. rewrite (ulp_exp_wd p q Hp E).
  rewrite (rne_wd (p / pow2 (ulp_exp q)) (q / pow2 (ulp_exp q))); [reflexivity|].
  rewrite E. reflexivity.
Qed.

Lemma div_pow2_le p q e : p <= q -> p / pow2 e <= q / pow2 e.
Proof.
  intros H. unfold Qdiv. apply Qmult_le_compat_r; [exact H|].
  apply Qlt_le_weak, Qinv_lt_0_compat, pow2_pos.
Qed.

Lemma div_pow2_lt_pow2 q a e : q < pow2 a -> q / pow2 e < pow2 (a - e).
Proof.
  intros H. rewrite pow2_sub. unfold Qdiv. apply Qmult_lt_compat_r; [|exact H].
  apply Qinv_lt_0_compat, pow2_pos.
Qed.

Lemma div_pow2_ge_pow2 q a e : pow2 a <= q -> pow2 (a - e) <= q / pow2 e.
Proof. intros H. rewrite pow2_sub. apply div_pow2_le, H. Qed.

Lemma round_pos_nonneg q : 0 < q -> 0 <= round_pos q.
Proof.
  intros Hq. unfold round_pos. apply Qmult_le_0_compat; [|apply Qlt_le_weak, pow2_pos].
  change 0 with (inject_Z 0). rewrite <- Zle_Qle. apply rne_ge_Z.
  apply Qle_trans with (0 / pow2 (ulp_exp q)); [|apply div_pow2_le, Qlt_le_weak, Hq].
  unfold Qdiv. rewrite Qmult_0_l. apply Qle_refl.
Qed.

Lemma round_pos_mono p q : 0 < p -> p <= q -> round_pos p <= round_pos q.
Proof.
  intros Hp Hpq. assert (Hq : 0 < q) by (eapply Qlt_le_trans; eassumption).
  pose proof (ulp_exp_mono p q Hp Hpq) as He. unfold round_pos.
  destruct (Z.eq_dec (ulp_exp p) (ulp_exp q)) as [E|NE].
  - rewrite E. apply Qmult_le_compat_r; [|apply Qlt_le_weak, pow2_pos].
    rewrite <- Zle_Qle. apply rne_mono, div_pow2_le, Hpq.
  - assert (Hlt : (ulp_exp p < ulp_exp q)%Z) by lia. clear NE He.
    destruct (Qlog2_spec p Hp) as [_ Sp]. destruct (Qlog2_spec q Hq) as [Sq _].
    set (ep := ulp_exp p) in *. set (eq := ulp_exp q) in *.
    assert (Hep : (Qlog2 p + 1 <= ep + 53)%Z) by (unfold ep, ulp_exp; lia).
    assert (Heq : (eq = Qlog2 q - 52)%Z) by (unfold ep, eq, ulp_exp in *; lia).
    apply Qle_trans with (pow2 (ep + 53)).
    + rewrite pow2_add, (Qmult_comm (pow2 ep)).
      apply Qmult_le_compat_r; [|apply Qlt_le_weak, pow2_pos].
      rewrite (pow2_Z 53) by lia. rewrite <- Zle_Qle. apply rne_le_Z.
      rewrite <- (pow2_Z 53) by lia. replace 53%Z with (ep + 53 - ep)%Z at 1 by lia.
      apply Qlt_le_weak, div_pow2_lt_pow2.
      eapply Qlt_le_trans; [exact Sp|]. apply pow2_le. lia.
    + apply Qle_trans with (pow2 (eq + 52)); [apply pow2_le; lia|].
      rewrite pow2_add, (Qmult_comm (pow2 eq)).
      apply Qmult_le_compat_r; [|apply Qlt_le_weak, pow2_pos].
      rewrite (pow2_Z 52) by lia. rewrite <- Zle_Qle. apply rne_ge_Z.
      rewrite <- (pow2_Z 52) by lia. replace 52%Z with (Qlog2 q - eq)%Z at 1 by lia.
      apply div_pow2_ge_pow2, Sq.
Qed.

Lemma round_pos_repr m k :
  (0 < m < 2 ^ 53)%Z -> (emin <= k)%Z ->
  round_pos (inject_Z m * pow2 k) == inject_Z m * pow2 k.
Proof.
  intros Hm Hk. set (q := inject_Z m * pow2 k).
  assert (Hq : 0 < q).
  { unfold q. apply Qmult_lt_0_compat; [|apply pow2_pos].
    change 0 with (inject_Z 0). rewrite <- Zlt_Qlt. lia. }
  assert (Hub : q < pow2 (53 + k)).
  { unfold q. rewrite pow2_add. apply Qmult_lt_compat_r; [apply pow2_pos|].
    rewrite (pow2_Z 53) by lia. rewrite <- Zlt_Qlt. lia. }
  destruct (Qlog2_spec q Hq) as [S1 _].
  assert (Hl : (Qlog2 q < 53 + k)%Z) by (apply pow2_lt_inv; eapply Qle_lt_trans; eassumption).
  unfold round_pos. set (e := ulp_exp q).
  assert (He : (e <= k)%Z) by (unfold e, ulp_exp; lia).
  assert (Hdiv : q / pow2 e == inject_Z (m * 2 ^ (k - e))).
  { unfold q. rewrite inject_Z_mult, <- (pow2_Z (k - e)) by lia. rewrite pow2_sub.
    field. apply Qnot_eq_sym, Qlt_not_eq, pow2_pos. }
  rewrite (rne_wd _ _ Hdiv), rne_Z, <- Hdiv. field.
  apply Qnot_eq_sym, Qlt_not_eq, pow2_pos.
Qed.

Lemma Qnum_pos_iff q : 0 < q <-> exists p, Qnum q = Zpos p.
Proof.
  destruct q as [[|p|p] d]; unfold Qlt; cbn; split; intros H;
    try lia; try (destruct H; discriminate); eauto.
Qed.

Lemma Qnum_neg_iff q : q < 0 <-> exists p, Qnum q = Zneg p.
Proof.
  destruct q as [[|p|p] d]; unfold Qlt; cbn; split; intros H;
    try lia; try (destruct H; discriminate); eauto.
Qed.

Lemma Qnum_zero_iff q : q == 0 <-> Qnum q = 0%Z.
Proof. destruct q as [n d]; unfold Qeq; cbn. lia. Qed.

Lemma rnd_pos q : 0 < q -> rnd q = Qred (round_pos q).
Proof. intros H. apply Qnum_pos_iff in H as [p Hp]. unfold rnd. rewrite Hp. reflexivity. Qed.

Lemma rnd_neg q : q < 0 -> rnd q = Qred (- round_pos (- q)).
Proof. intros H. apply Qnum_neg_iff in H as [p Hp]. unfold rnd. rewrite Hp. reflexivity. Qed.

Lemma rnd_zero q : q == 0 -> rnd q = 0.
Proof. intros H. apply Qnum_zero_iff in H. unfold rnd. rewrite H. reflexivity. Qed.

Lemma rnd_wd p q : p == q -> rnd p = rnd q.
Proof.
  intros E. destruct (Q_dec p 0) as [[H|H]|H].
  - rewrite (rnd_neg p H), (rnd_neg q) by (rewrite <- E; exact H).
    apply Qred_complete. apply Qopp_comp, round_pos_wd; [lra | rewrite E; reflexivity].
  - rewrite (rnd_pos p H), (rnd_pos q) by (rewrite <- E; exact H).
    apply Qred_complete, round_pos_wd; assumption.
  - rewrite (rnd_zero p H), (rnd_zero q) by (rewrite <- E; exact H). reflexivity.
Qed.

#[global] Instance rnd_proper : Proper (Qeq ==> Qeq) rnd.
Proof. intros p q E. rewrite (rnd_wd p q E). reflexivity. Qed.

Lemma rnd_opp q : rnd (- q) == - rnd q.
Proof.
  destruct (Q_dec q 0) as [[H|H]|H].
  - rewrite (rnd_neg q H), (rnd_pos (- q)) by lra. rewrite !Qred_correct. ring.
  - rewrite (rnd_pos q H), (rnd_neg (- q)) by lra. rewrite !Qred_correct.
    rewrite (round_pos_wd (- - q) q); [reflexivity | lra | ring].
  - rewrite (rnd_zero q H), (rnd_zero (- q)) by lra. reflexivity.
Qed.

Lemma rnd_nonneg q : 0 <= q -> 0 <= rnd q.
Proof.
  intros H. destruct (Qle_lt_or_eq _ _ H) as [L|E].
  - rewrite (rnd_pos q L), Qred_correct. apply round_pos_nonneg, L.
  - rewrite (rnd_zero q) by (symmetry; exact E). apply Qle_refl.
Qed.

Lemma rnd_nonpos q : q <= 0 -> rnd q <= 0.
Proof.
  intros H. assert (K : 0 <= rnd (- q)) by (apply rnd_nonneg; lra).
  rewrite rnd_opp in K. lra.
Qed.

Theorem rnd_mono p q : p <= q -> rnd p <= rnd q.
Proof.
  intros H. destruct (Qlt_le_dec 0 p) as [Hp|Hp].
  - assert (Hq : 0 < q) by lra.
    rewrite (rnd_pos p Hp), (rnd_pos q Hq), !Qred_correct. apply round_pos_mono; assumption.
  - destruct (Qlt_le_dec q 0) as [Hq|Hq].
    + assert (Hp' : p < 0) by lra.
      rewrite (rnd_neg p Hp'), (rnd_neg q Hq), !Qred_correct.
      apply Qopp_le_compat. apply round_pos_mono; lra.
    + apply Qle_trans with 0; [apply rnd_nonpos, Hp | apply rnd_nonneg, Hq].
Qed.

Theorem rnd_repr m k :
  (Z.abs m < 2 ^ 53)%Z -> (emin <= k)%Z ->
  rnd (inject_Z m * pow2 k) == inject_Z m * pow2 k.
Proof.
  intros Hm Hk. pose proof (pow2_pos k) as Pk.
  destruct (Z.lt_trichotomy m 0) as [L|[E|G]].
  - assert (Hneg : inject_Z m * pow2 k < 0).
    { assert (I : inject_Z m < 0) by (change 0 with (inject_Z 0); rewrite <- Zlt_Qlt; exact L).
      pose proof (Qmult_lt_compat_r _ _ _ Pk I) as K. lra. }
    rewrite (rnd_neg _ Hneg), Qred_correct.
    rewrite (round_pos_wd _ (inject_Z (- m) * pow2 k)).
    + rewrite round_pos_repr by lia. rewrite inject_Z_opp. ring.
    + lra.
    + rewrite inject_Z_opp. ring.
  - subst m. rewrite rnd_zero; [ring | ring].
  - assert (Hpos : 0 < inject_Z m * pow2 k).
    { apply Qmult_lt_0_compat; [|exact Pk]. change 0 with (inject_Z 0). rewrite <- Zlt_Qlt. lia. }
    rewrite (rnd_pos _ Hpos), Qred_correct. apply round_pos_repr; lia.
Qed.

Lemma Qred_inject_Z z : Qred (inject_Z z) = inject_Z z.
Proof.
  unfold Qred, inject_Z. pose proof (Z.ggcd_gcd z 1) as G.
  pose proof (Z.ggcd_correct_divisors z 1) as D.
  destruct (Z.ggcd z 1) as [g [a b]]. cbn in *. rewrite Z.gcd_1_r in G. subst g.
  destruct D as [D1 D2]. rewrite Z.mul_1_l in D1, D2. subst a b. reflexivity.
Qed.

Lemma rnd_canon q : Qred (rnd q) = rnd q.
Proof.
  unfold rnd. destruct (Qnum q); [reflexivity| |]; apply Qred_complete, Qred_correct.
Qed.

Theorem rnd_Z z : (Z.abs z < 2 ^ 53)%Z -> rnd (inject_Z z) = inject_Z z.
Proof.
  intros H. transitivity (Qred (rnd (inject_Z z))); [symmetry; apply rnd_canon|].
  transitivity (Qred (inject_Z z)); [apply Qred_complete | apply Qred_inject_Z].
  pose proof (rnd_repr z 0 H ltac:(unfold emin; lia)) as R.
  assert (E : inject_Z z == inject_Z z * pow2 0) by (unfold pow2; cbn; ring).
  rewrite (rnd_wd _ _ E), R. symmetry. exact E.
Qed.





(** Rounding never crosses a representable value. *)
Lemma rnd_le_Z q z : (Z.abs z < 2 ^ 53)%Z -> q <= inject_Z z -> rnd q <= inject_Z z.
Proof. intros Hz H. rewrite <- (rnd_Z z Hz). apply rnd_mono, H. Qed.

Lemma rnd_ge_Z q z : (Z.abs z < 2 ^ 53)%Z -> inject_Z z <= q -> inject_Z z <= rnd q.
Proof. intros Hz H. rewrite <- (rnd_Z z Hz). apply rnd_mono, H. Qed.

Lemma rnd_le_repr q m k :
  (Z.abs m < 2 ^ 53)%Z -> (emin <= k)%Z ->
  q <= inject_Z m * pow2 k -> rnd q <= inject_Z m * pow2 k.
Proof. intros Hm Hk H. rewrite <- (rnd_repr m k Hm Hk). apply rnd_mono, H. Qed.

Lemma rnd_ge_repr q m k :
  (Z.abs m < 2 ^ 53)%Z -> (emin <= k)%Z ->
  inject_Z m * pow2 k <= q -> inject_Z m * pow2 k <= rnd q.
Proof. intros Hm Hk H. rewrite <- (rnd_repr m k Hm Hk). apply rnd_mono, H. Qed.

Lemma of_int_exact z : (Z.abs z < 2 ^ 53)%Z -> of_int z = inject_Z z.
Proof. apply rnd_Z. Qed.

(** *** [int()] *)

Lemma to_int_floor q : 0 <= q -> to_int q = Qfloor q.
Proof.
  destruct q as [n d]. unfold Qle, to_int, Qfloor. cbn. intros H.
  apply Z.quot_div_nonneg; lia.
Qed.

Lemma to_int_opp q : to_int (- q) = (- to_int q)%Z.
Proof. destruct q as [n d]. unfold to_int. cbn. apply Z.quot_opp_l. lia. Qed.

Lemma Qopp_opp_eq p : - - p = p.
Proof. destruct p as [n d]. unfold Qopp. cbn. rewrite Z.opp_involutive. reflexivity. Qed.

Lemma to_int_wd p q : p == q -> to_int p = to_int q.
Proof.
  intros E. destruct (Qlt_le_dec p 0) as [H|H].
  - assert (Hq : q < 0) by (rewrite <- E; exact H).
    rewrite <- (Qopp_opp_eq p), <- (Qopp_opp_eq q).
    rewrite (to_int_opp (- p)), (to_int_opp (- q)).
    rewrite !to_int_floor by lra. f_equal. apply Qfloor_comp. rewrite E. reflexivity.
  - assert (Hq : 0 <= q) by (rewrite <- E; exact H).
    rewrite !to_int_floor by assumption. apply Qfloor_comp, E.
Qed.

Lemma to_int_Z z : to_int (inject_Z z) = z.
Proof. unfold to_int. cbn. apply Z.quot_1_r. Qed.

Lemma to_int_nonneg q : 0 <= q -> (0 <= to_int q)%Z.
Proof.
  intros H. rewrite to_int_floor by exact H.
  rewrite <- (Qfloor_Z 0). apply Qfloor_resp_le. exact H.
Qed.

Theorem to_int_mono p q : p <= q -> (to_int p <= to_int q)%Z.
Proof.
  intros H. destruct (Qlt_le_dec p 0) as [Hp|Hp]; destruct (Qlt_le_dec q 0) as [Hq|Hq].
  - rewrite <- (Qopp_opp_eq p), <- (Qopp_opp_eq q).
    rewrite (to_int_opp (- p)), (to_int_opp (- q)), !to_int_floor by lra.
    apply Z.opp_le_mono. rewrite !Z.opp_involutive. apply Qfloor_resp_le. lra.
  - pose proof (to_int_nonneg q Hq).
    rewrite <- (Qopp_opp_eq p), (to_int_opp (- p)).
    pose proof (to_int_nonneg (- p) ltac:(lra)). lia.
  - lra.
  - rewrite !to_int_floor by assumption. apply Qfloor_resp_le, H.
Qed.

Lemma to_int_le_Z q z : q <= inject_Z z -> (to_int q <= z)%Z.
Proof. intros H. rewrite <- (to_int_Z z). apply to_int_mono, H. Qed.

Lemma to_int_ge_Z q z : inject_Z z <= q -> (z <= to_int q)%Z.
Proof. intros H. rewrite <- (to_int_Z z). apply to_int_mono, H. Qed.

Lemma to_int_lt_Z q z : 0 <= q -> q < inject_Z z -> (to_int q < z)%Z.
Proof.
  intros H0 H. rewrite to_int_floor by exact H0.
  pose proof (Qfloor_le q) as F. rewrite Zlt_Qlt. lra.
Qed.

Lemma to_int_bounds q : 0 <= q -> inject_Z (to_int q) <= q /\ q < inject_Z (to_int q + 1).
Proof.
  intros H. rewrite to_int_floor by exact H. split; [apply Qfloor_le | apply Qlt_floor].
Qed.

(** *** Monotonicity of the operations *)

Lemma fadd_mono a b c d : a <= b -> c <= d -> fadd a c <= fadd b d.
Proof. intros. apply rnd_mono. lra. Qed.

Lemma fsub_mono a b c d : a <= b -> d <= c -> fsub a c <= fsub b d.
Proof. intros. apply rnd_mono. lra. Qed.

Lemma fmul_mono_l a b c : 0 <= c -> a <= b -> fmul a c <= fmul b c.
Proof. intros. apply rnd_mono. apply Qmult_le_compat_r; assumption. Qed.

Lemma fmul_mono_r a b c : 0 <= c -> a <= b -> fmul c a <= fmul c b.
Proof. intros. apply rnd_mono. rewrite !(Qmult_comm c). apply Qmult_le_compat_r; assumption. Qed.

Lemma flt_spec x y : flt x y = true <-> x < y.
Proof.
  unfold flt. rewrite negb_true_iff. split.
  - intros H. apply Qnot_le_lt. intros C. apply Qle_bool_iff in C. congruence.
  - intros H. destruct (Qle_bool y x) eqn:E; [|reflexivity].
    apply Qle_bool_iff in E. lra.
Qed.


End B64Facts.

Import B64Facts.

(** ** The model against the machine's binary64 *)

(** The kernel's floats are IEEE-754 binary64.  On the literals of the
    source and on every float computation of the script that does not go
    through [math.sin] or [math.cos], the rational model returns the value
    the machine returns. *)

#[local] Set Warnings "-inexact-float".

Example literals_match_machine :
  same_value 0.72%float c072 && same_value 0.6%float c06 && same_value 0.8%float c08
  && same_value 0.3%float c03 && same_value 0.2%float c02 && same_value 1.2%float c12
  && same_value 1.1%float c11 && same_value 0x1.921fb54442d18p+1%float Libm.pi = true.
Proof. vm_compute. reflexivity. Qed.

Example sampling_matches_machine :
  forallb (fun i =>
      let t := (prim_of_int i / prim_of_int 150)%float in
      same_value t (param i)
      && same_value (t * 0x1.921fb54442d18p+1 * 1.2)%float (sin_arg (param i))
      && same_value (t * 0x1.921fb54442d18p+1 * 1.2 * 1.1)%float (cos_arg (param i))
      && same_value (prim_of_int 200 + prim_of_int 600 * t)%float (base_x (param i))
      && same_value (prim_of_int 750 + - prim_of_int 500 * t)%float (base_y (param i))
      && same_value (prim_of_int 1 - t * 0.3)%float (damp_x (param i))
      && same_value (prim_of_int 1 - t * 0.2)%float (damp_y (param i)))
    (seqZ 0 150) = true.
Proof. vm_compute. reflexivity. Qed.

Example layers_match_machine :
  forallb (fun i =>
      let ratio := (prim_of_int i / prim_of_int 30)%float in
      same_value (prim_of_int 737 * (prim_of_int 1 - ratio))%float
                 (fmul (of_int 737) (fsub (of_int 1) (int_truediv i num_layers)))
      && same_value (prim_of_int 99 + prim_of_int 40 * ratio)%float
                    (fadd (of_int 99) (fmul (of_int (139 - 99)) (int_truediv i num_layers)))
      && same_value (prim_of_int 102 + - prim_of_int 10 * ratio)%float
                    (fadd (of_int 102) (fmul (of_int (92 - 102)) (int_truediv i num_layers))))
    (seqZ 0 30) = true.
Proof. vm_compute. reflexivity. Qed.

Example sqrt_matches_machine :
  forallb (fun d => same_value (PrimFloat.sqrt (prim_of_int d) / prim_of_int 4)%float
                               (fdiv (fsqrt (of_int d)) (of_int 4)))
          (seqZ 0 2000) = true.
Proof. vm_compute. reflexivity. Qed.

#[local] Set Warnings "+inexact-float".

(** ** Loops over ranges *)

Lemma elem_of_seqZ_iff (a n i : Z) : In i (seqZ a n) <-> a <= i < a + n.
Proof. rewrite <- list_elem_of_In, elem_of_seqZ. reflexivity. Qed.

Lemma forallb_seqZ (f : Z -> bool) (a n : Z) :
  forallb f (seqZ a n) = true -> forall i, a <= i < a + n -> f i = true.
Proof.
  intros H i Hi. rewrite forallb_forall in H. apply H, elem_of_seqZ_iff, Hi.
Qed.

Lemma fold_snoc_map {A B} (f : A -> B) (l : list A) (acc : list B) :
  fold_left (fun pts i => pts ++ [f i]) l acc = acc ++ map f l.
Proof.
  revert acc. induction l as [|a l IH]; intros acc; cbn.
  - rewrite app_nil_r. reflexivity.
  - rewrite IH, <- app_assoc. reflexivity.
Qed.

Lemma nth_seqZ_map {B} (f : Z -> B) (n i : Z) (d : B) :
  0 <= i < n -> nth (Z.to_nat i) (map f (seqZ 0 n)) d = f i.
Proof.
  intros Hi. unfold seqZ. rewrite map_map.
  rewrite (nth_indep _ d (f (Z.of_nat 0 + 0))) by (rewrite length_map, length_seq; lia).
  rewrite (map_nth (fun x => f (Z.of_nat x + 0)) (seq 0 (Z.to_nat n)) 0%nat).
  rewrite seq_nth by lia. f_equal. lia.
Qed.

Section ScriptFacts.

Variable sin cos : Q -> Q.

Lemma points_map size :
  points sin cos size = map (curve_point sin cos size) (seqZ 0 num_points).
Proof. unfold points. rewrite fold_snoc_map. reflexivity. Qed.

Lemma points_length size : len (points sin cos size) = num_points.
Proof.
  unfold len. rewrite points_map, length_map, length_seqZ. reflexivity.
Qed.

Lemma points_item size i :
  0 <= i < num_points -> item (points sin cos size) i = curve_point sin cos size i.
Proof. intros Hi. unfold item. rewrite points_map. apply nth_seqZ_map, Hi. Qed.

Lemma scale_nonneg size : 0 <= size -> (0 <= scale size)%Q.
Proof.
  intros H. unfold scale, fdiv, of_int. apply rnd_nonneg.
  apply Qle_shift_div_l; [reflexivity|]. rewrite Qmult_0_l.
  apply rnd_nonneg. change 0%Q with (inject_Z 0). rewrite <- Zle_Qle. exact H.
Qed.

Lemma damp_table :
  forallb (fun i => Qle_bool 0 (damp_x (param i)) && Qle_bool 0 (damp_y (param i)))
          (seqZ 0 150) = true.
Proof. vm_compute. reflexivity. Qed.

Lemma damp_nonneg i :
  0 <= i < num_points -> (0 <= damp_x (param i))%Q /\ (0 <= damp_y (param i))%Q.
Proof.
  intros Hi.
  pose proof (forallb_seqZ _ _ _ damp_table i Hi) as K. cbv beta in K.
  apply andb_true_iff in K as [K1 K2]. split; apply Qle_bool_iff; assumption.
Qed.

Lemma vx_of_mono i s1 s2 :
  0 <= i < num_points -> (s1 <= s2)%Q -> (vx_of i s1 <= vx_of i s2)%Q.
Proof.
  intros Hi H. destruct (damp_nonneg i Hi) as [D _]. unfold vx_of.
  apply fadd_mono; [apply Qle_refl|]. apply fmul_mono_l; [exact D|].
  apply fmul_mono_r; [|exact H]. vm_compute. discriminate.
Qed.

Lemma vy_of_mono i c1 c2 :
  0 <= i < num_points -> (c1 <= c2)%Q -> (vy_of i c1 <= vy_of i c2)%Q.
Proof.
  intros Hi H. destruct (damp_nonneg i Hi) as [_ D]. unfold vy_of.
  apply fadd_mono; [apply Qle_refl|]. apply fmul_mono_l; [exact D|].
  apply fmul_mono_r; [|exact H]. vm_compute. discriminate.
Qed.

Lemma fmul_wd a b c d : (a == b)%Q -> (c == d)%Q -> fmul a c = fmul b d.
Proof. intros E1 E2. apply rnd_wd. rewrite E1, E2. reflexivity. Qed.

Lemma fadd_wd a b c d : (a == b)%Q -> (c == d)%Q -> fadd a c = fadd b d.
Proof. intros E1 E2. apply rnd_wd. rewrite E1, E2. reflexivity. Qed.

Lemma point_of_wd size i s s' c c' :
  (s == s')%Q -> (c == c')%Q -> point_of size i s c = point_of size i s' c'.
Proof.
  intros Es Ec. unfold point_of, vx_of, vy_of.
  rewrite (fmul_wd (of_int wave_amplitude) (of_int wave_amplitude) s s') by (reflexivity || exact Es).
  rewrite (fmul_wd (fmul (of_int wave_amplitude) c06) (fmul (of_int wave_amplitude) c06) c c')
    by (reflexivity || exact Ec).
  reflexivity.
Qed.

Lemma point_of_squeeze size i s c slo shi clo chi :
  0 <= size -> 0 <= i < num_points ->
  (slo <= s <= shi)%Q -> (clo <= c <= chi)%Q ->
  point_of size i slo clo = point_of size i shi chi ->
  point_of size i s c = point_of size i slo clo.
Proof.
  intros Hs Hi [S1 S2] [C1 C2] E. pose proof (scale_nonneg size Hs) as K.
  unfold point_of in *. apply pair_equal_spec in E as [Ex Ey].
  assert (Mx : forall a b, (a <= b)%Q ->
    to_int (fmul (vx_of i a) (scale size)) <= to_int (fmul (vx_of i b) (scale size))).
  { intros a b H. apply to_int_mono, fmul_mono_l; [exact K | apply vx_of_mono; assumption]. }
  assert (My : forall a b, (a <= b)%Q ->
    to_int (fmul (vy_of i a) (scale size)) <= to_int (fmul (vy_of i b) (scale size))).
  { intros a b H. apply to_int_mono, fmul_mono_l; [exact K | apply vy_of_mono; assumption]. }
  pose proof (Mx _ _ S1). pose proof (Mx _ _ S2). pose proof (My _ _ C1). pose proof (My _ _ C2).
  f_equal; lia.
Qed.

Lemma curve_point_of size i :
  curve_point sin cos size i
  = point_of size i (sin (sin_arg (param i))) (cos (cos_arg (param i))).
Proof.
  unfold curve_point, point_of, vx_of, vy_of, offset_x, offset_y, damp_x, damp_y.
  reflexivity.
Qed.

End ScriptFacts.

Lemma model_table :
  forallb (fun i =>
      Qle_bool (Qabs (Libm.sin_model (sin_arg (param i)) - Libm.sin_ref (sin_arg (param i)))) Libm.eps
      && Qle_bool (Qabs (Libm.cos_model (cos_arg (param i)) - Libm.cos_ref (cos_arg (param i)))) Libm.eps)
    (seqZ 1 149) = true.
Proof. vm_compute. reflexivity. Qed.

Lemma model_at_zero :
  (Libm.sin_model 0 == 0)%Q /\ (Libm.cos_model 0 == 1)%Q
  /\ sin_arg (param 0) = 0%Q /\ cos_arg (param 0) = 0%Q.
Proof. vm_compute. repeat split; reflexivity. Qed.

Lemma model_is_accurate : libm_accurate Libm.sin_model Libm.cos_model.
Proof.
  destruct model_at_zero as (Z1 & Z2 & _).
  split; [exact Z1|]. split; [exact Z2|]. intros i Hi.
  assert (Hi' : 1 <= i < 1 + 149) by (unfold num_points in Hi; lia).
  pose proof (forallb_seqZ _ _ _ model_table i Hi') as K. cbv beta in K.
  destruct (andb_prop _ _ K) as [K1 K2].
  split; [exact (proj1 (Qle_bool_iff _ _) K1) | exact (proj1 (Qle_bool_iff _ _) K2)].
Qed.

Section Agreement.

Variable sin cos : Q -> Q.

Lemma within_eps (s r e : Q) : (Qabs (s - r) <= e)%Q -> (r - e <= s <= r + e)%Q.
Proof. intros H. apply Qabs_diff_Qle_condition in H. split; lra. Qed.

Lemma curve_point_agree size i :
  0 <= size -> 0 <= i < num_points ->
  pinned size = true ->
  libm_accurate sin cos ->
  curve_point sin cos size i = curve_point Libm.sin_model Libm.cos_model size i.
Proof.
  intros Hs Hi Hp (S0 & C0 & A). rewrite (curve_point_of sin cos), (curve_point_of Libm.sin_model Libm.cos_model).
  destruct (Z.eq_dec i 0) as [->|NZ].
  - destruct model_at_zero as (Z1 & Z2 & Es & Ec).
    rewrite Es, Ec. apply point_of_wd.
    + rewrite S0, Z1. reflexivity.
    + rewrite C0, Z2. reflexivity.
  - assert (Hi' : 1 <= i < num_points) by lia.
    assert (Hi'' : 1 <= i < 1 + 149) by (clear - Hi'; unfold num_points in Hi'; lia).
    destruct (A i Hi') as [As Ac].
    destruct (model_is_accurate) as (_ & _ & B). destruct (B i Hi') as [Bs Bc].
    pose proof (forallb_seqZ _ _ _ Hp i Hi'') as P. cbv beta in P.
    apply bool_decide_eq_true in P.
    rewrite (point_of_squeeze size i _ _ _ _ _ _ Hs Hi (within_eps _ _ _ As) (within_eps _ _ _ Ac) P).
    rewrite (point_of_squeeze size i _ _ _ _ _ _ Hs Hi (within_eps _ _ _ Bs) (within_eps _ _ _ Bc) P).
    reflexivity.
Qed.

Lemma points_agree size :
  0 <= size -> pinned size = true -> libm_accurate sin cos ->
  points sin cos size = points Libm.sin_model Libm.cos_model size.
Proof.
  intros Hs Hp Ha. rewrite (points_map sin cos), (points_map Libm.sin_model Libm.cos_model).
  apply map_ext_in. intros i Hi.
  apply elem_of_seqZ_iff in Hi. apply curve_point_agree; assumption.
Qed.

Lemma curve_agree size :
  0 <= size -> pinned size = true -> libm_accurate sin cos ->
  draw_elegant_curve sin cos size = draw_elegant_curve Libm.sin_model Libm.cos_model size.
Proof.
  intros Hs Hp Ha. unfold draw_elegant_curve. rewrite (points_agree size Hs Hp Ha). reflexivity.
Qed.

End Agreement.

Lemma pinned_1024 : pinned 1024 = true.
Proof. vm_compute. reflexivity. Qed.

(** ** The canvas keeps its shape *)

Section CanvasFacts.

Variable sin cos : Q -> Q.
Variable painted : box -> Z -> Z -> bool.

Lemma draw_all_shape img calls :
  im_mode (draw_all painted img calls) = im_mode img
  /\ im_width (draw_all painted img calls) = im_width img
  /\ im_height (draw_all painted img calls) = im_height img.
Proof.
  revert img. induction calls as [|c calls IH]; intros img; cbn; [auto|].
  destruct (IH (ellipse painted img (fst c) (snd c))) as (M & W & H).
  unfold draw_all in *. rewrite M, W, H. auto.
Qed.



(** *** One run of [generate_icon] *)

Lemma prefixes_self (p : path) : p ∈ prefixes p.
Proof.
  unfold prefixes. apply list_elem_of_In, in_map_iff. exists (length p). split.
  - apply firstn_all.
  - apply in_seq. lia.
Qed.


Lemma generate_icon_run output_dir size w :
  generate_icon sin cos painted output_dir size w =
  match Image_new RGB (size, size) base_fill with
  | inl e => (inl e, after_makedirs output_dir w)
  | inr img =>
      let output_path := output_dir ++ [icon_name size] in
      (inr output_path,
       World (dirs w ∪ list_to_set (prefixes output_dir))
             (<[output_path := render sin cos painted img size]> (files w))
             (stdout w ++ [generated_message output_path size]))
  end.
Proof.
  unfold generate_icon, bind, makedirs, lift. cbv beta iota.
  destruct (Image_new RGB (size, size) base_fill) as [e|img]; [reflexivity|].
  unfold save, write_file, print, ret. cbn [dirs files stdout].
  rewrite removelast_last. rewrite bool_decide_eq_true_2; [reflexivity|].
  apply elem_of_union_r, elem_of_list_to_set, prefixes_self.
Qed.



End CanvasFacts.

(** ** The entry point *)




Section EntryPoint.

Variable sin cos : Q -> Q.
Variable painted : box -> Z -> Z -> bool.


End EntryPoint.


(** ** Stroke widths *)

Lemma literal_bounds :
  (0 <= c06)%Q /\ (c06 <= 6 # 10)%Q /\ (c06 <= c08)%Q /\ (c08 <= 1)%Q
  /\ (0 <= c072)%Q /\ (c072 <= 1)%Q.
Proof. repeat split; apply Qle_bool_iff; vm_compute; reflexivity. Qed.

Lemma scale_mono a b : a <= b -> (scale a <= scale b)%Q.
Proof.
  intros H. unfold scale, fdiv, of_int. apply rnd_mono.
  unfold Qdiv. apply Qmult_le_compat_r; [|vm_compute; discriminate].
  apply rnd_mono. rewrite <- Zle_Qle. exact H.
Qed.

Lemma line_width_mono a b : a <= b -> line_width a <= line_width b.
Proof.
  intros H. unfold line_width. apply to_int_mono, fmul_mono_r; [vm_compute; discriminate|].
  apply scale_mono, H.
Qed.

Lemma line_width_range size :
  64 <= size <= INT_MAX -> 1 <= line_width size <= 33554431.
Proof.
  intros [H1 H2]. pose proof (line_width_mono _ _ H1) as L1.
  pose proof (line_width_mono _ _ H2) as L2.
  replace (line_width 64) with 1 in L1 by (vm_compute; reflexivity).
  replace (line_width INT_MAX) with 33554431 in L2 by (vm_compute; reflexivity).
  lia.
Qed.

Lemma inject_Z_sub a b : (inject_Z (a - b) == inject_Z a - inject_Z b)%Q.
Proof. unfold Z.sub. rewrite inject_Z_plus, inject_Z_opp. reflexivity. Qed.

Lemma taper_order size :
  64 <= size <= INT_MAX ->
  0 <= width_06 size /\ width_06 size < line_width size
  /\ width_06 size <= width_08 size /\ width_08 size <= line_width size.
Proof.
  intros Hs. pose proof (line_width_range size Hs) as [L1 L2].
  destruct literal_bounds as (B0 & B1 & B2 & B3 & _).
  unfold width_06, width_08. set (lw := line_width size) in *.
  assert (Hlw : Z.abs lw < 2 ^ 53) by lia.
  rewrite (of_int_exact lw Hlw).
  assert (P : (0 < inject_Z lw)%Q) by (change 0%Q with (inject_Z 0); rewrite <- Zlt_Qlt; lia).
  assert (P1 : (1 <= inject_Z lw)%Q) by (change 1%Q with (inject_Z 1); rewrite <- Zle_Qle; lia).
  repeat split.
  - apply to_int_nonneg, rnd_nonneg. apply Qmult_le_0_compat; [lra | exact B0].
  - apply to_int_lt_Z.
    + apply rnd_nonneg. apply Qmult_le_0_compat; [lra | exact B0].
    + apply Qle_lt_trans with (inject_Z (4 * lw - 1) * pow2 (-2))%Q.
      * apply rnd_le_repr; [lia | unfold emin; lia |].
        rewrite inject_Z_sub, inject_Z_mult. change (pow2 (-2)) with (1 # 4)%Q.
        change (inject_Z 4) with 4%Q. change (inject_Z 1) with 1%Q. nra.
      * rewrite inject_Z_sub, inject_Z_mult. change (pow2 (-2)) with (1 # 4)%Q.
        change (inject_Z 4) with 4%Q. change (inject_Z 1) with 1%Q. lra.
  - apply to_int_mono, fmul_mono_r; [lra | exact B2].
  - apply to_int_le_Z. apply rnd_le_Z; [exact Hlw|]. nra.
Qed.

(** C4, as stated, fails: at size 60 (an iOS icon size) the line width is
    [int(16 * 60 / 1024.0) = 0], so every sample has width 0. *)
Lemma taper_fails_at_size_60 :
  ~ (sample_width 60 150 0 < sample_width 60 150 75).
Proof. vm_compute. intros H. discriminate H. Qed.

(** C4 (taper), amended: for every size from 64 up to the largest that
    [Image.new] accepts, sample 0 is strictly thinner than sample 75.  The
    width is [int(0.6 * line_width)] on samples 0-9 and 141-149,
    [int(0.8 * line_width)] on samples 10-19 and 131-140, and [line_width]
    on samples 20-130: the first 20 and the last 19 of 150 are tapered, in
    two bands each, with [0.6-band <= 0.8-band <= line_width]. *)
Theorem taper_above_64 (size : Z) :
  64 <= size <= INT_MAX ->
  sample_width size 150 0 < sample_width size 150 75
  /\ (forall i, 0 <= i < 150 ->
        sample_width size 150 i =
          if decide (i < 10 \/ 140 < i) then width_06 size
          else if decide (i < 20 \/ 130 < i) then width_08 size
          else line_width size)
  /\ width_06 size <= width_08 size <= line_width size.
Proof.
  intros Hs. destruct (taper_order size Hs) as (T0 & T1 & T2 & T3).
  split; [|split; [|lia]].
  - change (sample_width size 150 0) with (width_06 size).
    change (sample_width size 150 75) with (line_width size). exact T1.
  - intros i Hi. unfold sample_width. fold (width_06 size). fold (width_08 size).
    repeat case_decide;
      destruct (i <? 10) eqn:E1; destruct (150 - 10 <? i) eqn:E2;
      destruct (i <? 20) eqn:E3; destruct (150 - 20 <? i) eqn:E4; cbn [orb]; try reflexivity; lia.
Qed.

Lemma taper_above_64_witness :
  sample_width 1024 150 0 < sample_width 1024 150 75.
Proof. apply (taper_above_64 1024). unfold INT_MAX. lia. Defined.

(** ** Background layers *)

Lemma layer_radius_of size i : layer_radius size i = radius_of (max_radius size) i.
Proof. reflexivity. Qed.

Lemma shrink_table :
  forallb (fun i => Qle_bool 0 (shrink (i + 1))
                    && Qle_bool (shrink (i + 1) + (65 # 1984)) (shrink i)
                    && Qle_bool (shrink i) 1)
          (seqZ 0 29) = true.
Proof. vm_compute. reflexivity. Qed.

Lemma shrink_step i :
  0 <= i < 29 ->
  (0 <= shrink (i + 1))%Q /\ (shrink (i + 1) + (65 # 1984) <= shrink i)%Q /\ (shrink i <= 1)%Q.
Proof.
  intros Hi. pose proof (forallb_seqZ _ _ _ shrink_table i Hi) as K. cbv beta in K.
  destruct (andb_prop _ _ K) as [K12 K3]. destruct (andb_prop _ _ K12) as [K1 K2].
  repeat split; apply Qle_bool_iff; assumption.
Qed.

Lemma radius_step m i :
  31 <= m <= INT_MAX -> 0 <= i < 29 -> radius_of m (i + 1) < radius_of m i.
Proof.
  intros Hm Hi. destruct (shrink_step i Hi) as (S0 & S1 & S2).
  unfold radius_of. rewrite (of_int_exact m) by (unfold INT_MAX in Hm; lia).
  set (x1 := (inject_Z m * shrink (i + 1))%Q). set (x0 := (inject_Z m * shrink i)%Q).
  assert (Pm : (31 <= inject_Z m)%Q) by (change 31%Q with (inject_Z 31); rewrite <- Zle_Qle; lia).
  assert (Hx1 : (0 <= x1)%Q) by (unfold x1; apply Qmult_le_0_compat; lra).
  assert (Hx1m : (x1 <= inject_Z m)%Q) by (unfold x1; nra).
  assert (Hgap : (x1 + (65 # 64) <= x0)%Q) by (unfold x0, x1; nra).
  pose proof (rnd_nonneg x1 Hx1) as R0.
  pose proof (rnd_le_Z x1 m ltac:(unfold INT_MAX in Hm; lia) Hx1m) as Rm.
  unfold fmul. fold x1 x0.
  destruct (to_int_bounds (rnd x1) R0) as [A1 A2].
  set (a := to_int (rnd x1)) in *.
  assert (Ha : 0 <= a <= m).
  { split; [apply to_int_nonneg, R0 | apply to_int_le_Z, Rm]. }
  assert (Hlow : (inject_Z (64 * a - 1) * pow2 (-6) < x1)%Q).
  { apply Qnot_le_lt. intros C.
    pose proof (rnd_le_repr x1 (64 * a - 1) (-6)
                  ltac:(unfold INT_MAX in Hm; lia) ltac:(unfold emin; lia) C) as D.
    rewrite inject_Z_sub, inject_Z_mult in D. change (pow2 (-6)) with (1 # 64)%Q in D.
    change (inject_Z 64) with 64%Q in D. change (inject_Z 1) with 1%Q in D. lra. }
  rewrite inject_Z_sub, inject_Z_mult in Hlow. change (pow2 (-6)) with (1 # 64)%Q in Hlow.
  change (inject_Z 64) with 64%Q in Hlow. change (inject_Z 1) with 1%Q in Hlow.
  assert (Hup : (inject_Z (a + 1) <= x0)%Q).
  { rewrite inject_Z_plus. change (inject_Z 1) with 1%Q. lra. }
  pose proof (to_int_ge_Z _ _ (rnd_ge_Z x0 (a + 1) ltac:(unfold INT_MAX in Hm; lia) Hup)).
  lia.
Qed.

Lemma radius_small_table :
  forallb (fun m => forallb (fun i => radius_of m (i + 1) <? radius_of m i) (seqZ 0 29))
          [29; 30] = true.
Proof. vm_compute. reflexivity. Qed.

Lemma radius_step_29 m i :
  29 <= m <= INT_MAX -> 0 <= i < 29 -> radius_of m (i + 1) < radius_of m i.
Proof.
  intros Hm Hi. destruct (Z_le_gt_dec 31 m) as [H|H]; [apply radius_step; lia|].
  pose proof radius_small_table as T. cbn [forallb] in T.
  destruct (andb_prop _ _ T) as [T29 T']. destruct (andb_prop _ _ T') as [T30 _].
  assert (Hc : m = 29 \/ m = 30) by lia. destruct Hc as [-> | ->].
  - pose proof (forallb_seqZ _ _ _ T29 i Hi) as K. cbv beta in K. lia.
  - pose proof (forallb_seqZ _ _ _ T30 i Hi) as K. cbv beta in K. lia.
Qed.

Lemma max_radius_mono a b : a <= b -> max_radius a <= max_radius b.
Proof.
  intros H. destruct literal_bounds as (_ & _ & _ & _ & B & _).
  unfold max_radius. apply to_int_mono, fmul_mono_l; [exact B|].
  unfold of_int. apply rnd_mono. rewrite <- Zle_Qle. exact H.
Qed.

Lemma max_radius_range size : 41 <= size <= INT_MAX -> 29 <= max_radius size <= INT_MAX.
Proof.
  intros [H1 H2]. pose proof (max_radius_mono _ _ H1) as L1.
  pose proof (max_radius_mono _ _ H2) as L2.
  replace (max_radius 41) with 29 in L1 by (vm_compute; reflexivity).
  replace (max_radius INT_MAX) with 1546188225 in L2 by (vm_compute; reflexivity).
  unfold INT_MAX. lia.
Qed.

Lemma radius_decreasing m i j :
  29 <= m <= INT_MAX -> 0 <= i -> i < j -> j < 30 -> radius_of m j < radius_of m i.
Proof.
  intros Hm Hi Hij Hj.
  assert (G : forall n : nat, (n < 30 - Z.to_nat i)%nat ->
              (0 < n)%nat -> radius_of m (i + Z.of_nat n) < radius_of m i).
  { induction n as [|n IH]; intros Hn Hpos; [lia|].
    destruct n as [|n'].
    - apply (radius_step_29 m i Hm). lia.
    - specialize (IH ltac:(lia) ltac:(lia)).
      pose proof (radius_step_29 m (i + Z.of_nat (S n')) Hm ltac:(lia)) as St.
      replace (i + Z.of_nat (S (S n'))) with (i + Z.of_nat (S n') + 1) by lia. lia. }
  specialize (G (Z.to_nat (j - i)) ltac:(lia) ltac:(lia)).
  replace (i + Z.of_nat (Z.to_nat (j - i))) with j in G by lia. exact G.
Qed.

(** C8, as stated, fails: at size 40 layers 14 and 15 are both drawn, with
    the same radius 14. *)
Lemma radii_repeat_at_size_40 :
  In (layer_box 40 14, layer_color 14) (background 40)
  /\ In (layer_box 40 15, layer_color 15) (background 40)
  /\ ~ (layer_radius 40 15 < layer_radius 40 14).
Proof.
  assert (E : layer_radius 40 14 = 14 /\ layer_radius 40 15 = 14) by (vm_compute; auto).
  split; [|split].
  - vm_compute. do 14 right. left. reflexivity.
  - vm_compute. do 15 right. left. reflexivity.
  - destruct E as [-> ->]. lia.
Qed.

(** C8 (shrinking layers), amended: for every size from 41 up to the
    largest that [Image.new] accepts, the radius of layer [i] is strictly
    greater than the radius of every later layer [j], for all
    [0 <= i < j <= 29]; the later circle's box lies strictly inside the
    earlier one's, and it comes later in the list of drawing calls. *)
Theorem layer_radii_decreasing (size i j : Z) :
  41 <= size <= INT_MAX -> 0 <= i -> i < j -> j < num_layers ->
  layer_radius size j < layer_radius size i
  /\ (let '(a0, b0, a1, b1) := layer_box size i in
      let '(c0, d0, c1, d1) := layer_box size j in
      a0 < c0 /\ b0 < d0 /\ c1 < a1 /\ d1 < b1).
Proof.
  intros Hs Hi Hij Hj. pose proof (max_radius_range size Hs) as Hm.
  assert (R : layer_radius size j < layer_radius size i).
  { rewrite !layer_radius_of. apply radius_decreasing; assumption. }
  split; [exact R|]. unfold layer_box. lia.
Qed.

Lemma layer_radii_decreasing_witness :
  layer_radius 1024 29 < layer_radius 1024 0.
Proof.
  apply (layer_radii_decreasing 1024 0 29); [unfold INT_MAX; lia | lia | lia | reflexivity].
Defined.

(** ** Scaling *)


Lemma range_table :
  forallb (fun i => Qle_bool 0 (vx_of i (-1)) && Qle_bool (vx_of i 1) 1024
                    && Qle_bool 0 (vy_of i (-1)) && Qle_bool (vy_of i 1) 1024)
          (seqZ 0 150) = true.
Proof. vm_compute. reflexivity. Qed.




Section Scaling.

Variable sin cos : Q -> Q.


End Scaling.

Lemma model_in_range : libm_range Libm.sin_model Libm.cos_model.
Proof.
  assert (T : forallb (fun i =>
      Qle_bool (-1) (Libm.sin_model (sin_arg (param i)))
      && Qle_bool (Libm.sin_model (sin_arg (param i))) 1
      && Qle_bool (-1) (Libm.cos_model (cos_arg (param i)))
      && Qle_bool (Libm.cos_model (cos_arg (param i))) 1) (seqZ 0 150) = true)
    by (vm_compute; reflexivity).
  intros i Hi. pose proof (forallb_seqZ _ _ _ T i Hi) as K. cbv beta in K.
  destruct (andb_prop _ _ K) as [K123 K4]. destruct (andb_prop _ _ K123) as [K12 K3].
  destruct (andb_prop _ _ K12) as [K1 K2].
  repeat split; apply Qle_bool_iff; assumption.
Qed.




(** ** The rendered pixels at size 1024 *)

Lemma off_corners_spec c x y :
  off_corners c = true ->
  (x, y) = (0, 0) \/ (x, y) = (1023, 0) \/ (x, y) = (0, 1023) \/ (x, y) = (1023, 1023) ->
  near_ellipse (fst c) x y = false.
Proof.
  unfold off_corners. intros K H. repeat (apply andb_true_iff in K as [K ?]).
  destruct H as [H|[H|[H|H]]]; injection H as -> ->; apply negb_true_iff; assumption.
Qed.

Lemma off_marks_spec c x y :
  off_marks c = true ->
  (x, y) = (512, 512) \/ (x, y) = (0, 0) \/ (x, y) = (1023, 0)
  \/ (x, y) = (0, 1023) \/ (x, y) = (1023, 1023) ->
  near_ellipse (fst c) x y = false.
Proof.
  unfold off_marks. intros K H. apply andb_true_iff in K as [K1 K2].
  destruct H as [H|H]; [injection H as -> ->; apply negb_true_iff; assumption|].
  apply off_corners_spec; assumption.
Qed.

Lemma model_curve_inside : forallb (fun c => box_inside 196 802 (fst c)) model_curve = true.
Proof. vm_compute. reflexivity. Qed.

Lemma model_curve_far : forallb off_marks model_curve = true.
Proof. vm_compute. reflexivity. Qed.

Lemma background_1024 :
  background 1024
  = (layer_box 1024 0, base_fill) :: inner_layers ++ [((488, 488, 536, 536), layer_color 29)].
Proof. vm_compute. reflexivity. Qed.

Lemma inner_layers_far :
  forallb off_corners (inner_layers ++ [((488, 488, 536, 536), layer_color 29)]) = true.
Proof. vm_compute. reflexivity. Qed.

Section Pixels.

Variable sin cos : Q -> Q.
Variable painted : box -> Z -> Z -> bool.

Lemma draw_all_app img l1 l2 :
  draw_all painted img (l1 ++ l2) = draw_all painted (draw_all painted img l1) l2.
Proof. unfold draw_all. apply fold_left_app. Qed.

Lemma draw_all_skip img calls x y :
  (forall c, In c calls -> painted (fst c) x y = false) ->
  im_px (draw_all painted img calls) x y = im_px img x y.
Proof.
  revert img. induction calls as [|c calls IH]; intros img H; [reflexivity|].
  change (draw_all painted img (c :: calls))
    with (draw_all painted (ellipse painted img (fst c) (snd c)) calls).
  rewrite IH by (intros c' Hc'; apply H; right; exact Hc').
  cbn [ellipse im_px]. rewrite (H c (or_introl eq_refl)), andb_false_r. reflexivity.
Qed.

Lemma ellipse_painted img b c x y :
  in_image img x y = true -> painted b x y = true ->
  im_px (ellipse painted img b c) x y = c.
Proof. intros H1 H2. cbn [ellipse im_px]. rewrite H1, H2. reflexivity. Qed.

Lemma ellipse_same img b c x y :
  im_px img x y = c -> im_px (ellipse painted img b c) x y = c.
Proof.
  intros H. cbn [ellipse im_px]. destruct (in_image img x y && painted b x y); [reflexivity|exact H].
Qed.

Lemma far_not_painted (f : box * rgb -> bool) (calls : list (box * rgb)) x y :
  paints_inside painted ->
  (forall c, f c = true -> near_ellipse (fst c) x y = false) ->
  forallb f calls = true ->
  forall c, In c calls -> painted (fst c) x y = false.
Proof.
  intros P F T c Hc. rewrite forallb_forall in T. specialize (F c (T c Hc)).
  destruct (painted (fst c) x y) eqn:E; [|reflexivity].
  rewrite (P _ _ _ E) in F. discriminate.
Qed.

(** C3, as stated, fails in its last clause: the corner pixel (0, 0) is not
    outside the gradient's maximum radius; its distance from the centre
    (512, 512) is below [max_radius 1024 = 737]. *)
Lemma corner_inside_max_radius :
  ~ ((max_radius 1024) ^ 2 < (0 - center 1024) ^ 2 + (0 - center 1024) ^ 2).
Proof.
  replace (max_radius 1024) with 737 by (vm_compute; reflexivity).
  replace (center 1024) with 512 by (vm_compute; reflexivity). lia.
Qed.

(** C3 (centre and corners), amended: at size 1024 the centre pixel has the
    colour of layer 29, the innermost one, and each corner pixel has the base
    fill colour (99, 102, 241).  The corners lie inside the outermost circle
    (radius 737), whose colour is the base colour itself, and outside the
    next circle (radius 712), hence outside every later one. *)
Theorem center_and_corners :
  libm_accurate sin cos -> paints_inside painted -> paints_center painted ->
  let img := render sin cos painted blank_1024 1024 in
  im_px img 512 512 = layer_color 29
  /\ (im_px img 0 0 = base_fill /\ im_px img 1023 0 = base_fill
      /\ im_px img 0 1023 = base_fill /\ im_px img 1023 1023 = base_fill)
  /\ base_fill = (99, 102, 241)
  /\ layer_color 0 = base_fill
  /\ (0 - center 1024) ^ 2 + (0 - center 1024) ^ 2 < (layer_radius 1024 0) ^ 2
  /\ (layer_radius 1024 1 + 1) ^ 2 < (1023 - center 1024) ^ 2 + (1023 - center 1024) ^ 2.
Proof.
  intros A P C img.
  assert (Hcurve : forall x y,
    (x, y) = (512, 512) \/ (x, y) = (0, 0) \/ (x, y) = (1023, 0)
    \/ (x, y) = (0, 1023) \/ (x, y) = (1023, 1023) ->
    im_px img x y = im_px (draw_all painted blank_1024 (background 1024)) x y).
  { intros x y M. unfold img, render. apply draw_all_skip.
    rewrite (curve_agree sin cos 1024 ltac:(lia) pinned_1024 A).
    apply (far_not_painted off_marks); [exact P | | exact model_curve_far].
    intros c K. exact (off_marks_spec c x y K M). }
  assert (Hcorner : forall x y,
    (x, y) = (0, 0) \/ (x, y) = (1023, 0) \/ (x, y) = (0, 1023) \/ (x, y) = (1023, 1023) ->
    im_px img x y = base_fill).
  { intros x y M. rewrite (Hcurve x y (or_intror M)), background_1024.
    change (draw_all painted blank_1024 ((layer_box 1024 0, base_fill) ::
              inner_layers ++ [(488, 488, 536, 536, layer_color 29)]))
      with (draw_all painted (ellipse painted blank_1024 (layer_box 1024 0) base_fill)
              (inner_layers ++ [(488, 488, 536, 536, layer_color 29)])).
    rewrite draw_all_skip.
    - apply ellipse_same. reflexivity.
    - apply (far_not_painted off_corners); [exact P | | exact inner_layers_far].
      intros c K. exact (off_corners_spec c x y K M). }
  split; [|split; [|split; [reflexivity|split; [vm_compute; reflexivity|split]]]].
  - rewrite (Hcurve 512 512 (or_introl eq_refl)), background_1024.
    change ((layer_box 1024 0, base_fill) :: inner_layers ++ [(488, 488, 536, 536, layer_color 29)])
      with (((layer_box 1024 0, base_fill) :: inner_layers) ++ [(488, 488, 536, 536, layer_color 29)]).
    rewrite draw_all_app.
    change (draw_all painted ?i [(?b, ?c)]) with (ellipse painted i b c).
    apply ellipse_painted.
    + unfold in_image.
      destruct (draw_all_shape painted blank_1024 ((layer_box 1024 0, base_fill) :: inner_layers))
        as (_ & W & H). rewrite W, H. reflexivity.
    + exact (C 512 24 ltac:(lia)).
  - repeat split; apply Hcorner; auto.
  - vm_compute. reflexivity.
  - vm_compute. reflexivity.
Qed.

End Pixels.

Section Strokes.

Variable sin cos : Q -> Q.

Lemma curve_calls_are_strokes size (pts : list (Z * Z)) call :
  In call (sample_circles size pts ++ connect_circles size pts) ->
  exists x y w, call = (stroke_box x y w, white).
Proof.
  intros H. apply in_app_or in H as [H|H].
  - unfold sample_circles in H. apply in_map_iff in H as (i & <- & _).
    destruct (item pts i) as [x y]. eauto.
  - unfold connect_circles in H. apply in_flat_map in H as (i & _ & H).
    unfold segment_circles in H. apply in_map_iff in H as (j & <- & _).
    destruct (substep_point _ _ _) as [x y]. eauto.
Qed.

(** C10 (strokes stay on the canvas): at size 1024, on a platform with an
    accurate sine and cosine, every circle drawn for the curve (at a sample
    or at a sub-step) is [stroke_box x y w] for a point [(x, y)] and a width
    [w] with [x - w//2], [x + w//2], [y - w//2] and [y + w//2] all in
    [[0, 1024)], and so are [x - w/2], [x + w/2], [y - w/2], [y + w/2] for
    the exact half width. *)
Theorem curve_within_canvas (call : box * rgb) :
  libm_accurate sin cos ->
  In call (draw_elegant_curve sin cos 1024) ->
  exists x y w,
    call = (stroke_box x y w, white)
    /\ 0 <= x - w / 2 /\ x + w / 2 < 1024 /\ 0 <= y - w / 2 /\ y + w / 2 < 1024
    /\ 0 <= 2 * x - w /\ 2 * x + w < 2 * 1024 /\ 0 <= 2 * y - w /\ 2 * y + w < 2 * 1024.
Proof.
  intros A H. rewrite (curve_agree sin cos 1024 ltac:(lia) pinned_1024 A) in H.
  pose proof model_curve_inside as T. rewrite forallb_forall in T. specialize (T call H).
  destruct (curve_calls_are_strokes _ _ _ H) as (x & y & w & ->).
  exists x, y, w. split; [reflexivity|].
  cbv beta iota zeta delta [box_inside stroke_box fst] in T.
  repeat (apply andb_true_iff in T as [T ?]). clear H A.
  repeat match goal with K : (_ <=? _) = true |- _ => apply Z.leb_le in K end.
  Z.div_mod_to_equations. lia.
Qed.

End Strokes.

Lemma near_ellipse_paints_inside : paints_inside near_ellipse.
Proof. intros b x y H. exact H. Qed.

Lemma near_ellipse_paints_center : paints_center near_ellipse.
Proof.
  intros c r Hr. unfold near_ellipse. apply Z.leb_le.
  replace (2 * c - (c - r) - (c + r)) with 0 by lia. nia.
Qed.

Lemma curve_within_canvas_witness :
  exists x y w,
    (stroke_box 200 798 9, white) = (stroke_box x y w, white)
    /\ 0 <= x - w / 2 /\ x + w / 2 < 1024 /\ 0 <= y - w / 2 /\ y + w / 2 < 1024
    /\ 0 <= 2 * x - w /\ 2 * x + w < 2 * 1024 /\ 0 <= 2 * y - w /\ 2 * y + w < 2 * 1024.
Proof.
  apply (curve_within_canvas Libm.sin_model Libm.cos_model
           (stroke_box 200 798 9, white) model_is_accurate).
  vm_compute. left. reflexivity.
Defined.

Lemma center_and_corners_witness :
  im_px (render Libm.sin_model Libm.cos_model near_ellipse blank_1024 1024) 512 512
  = layer_color 29.
Proof.
  apply (center_and_corners Libm.sin_model Libm.cos_model near_ellipse model_is_accurate
           near_ellipse_paints_inside near_ellipse_paints_center).
Defined.

(** ** The sampler as the specification words it *)



Section Sampler.

Variable sin cos : Q -> Q.


End Sampler.

(** ** Sub-steps of a segment *)

Lemma tiny_pow2 : (pow2 (-31) == tiny)%Q.
Proof. reflexivity. Qed.

Lemma truediv_bounds j n :
  1 <= j < n -> n <= 2 ^ 31 -> (tiny <= int_truediv j n <= 1 - tiny)%Q.
Proof.
  intros Hj Hn. unfold int_truediv.
  assert (Pn : (0 < inject_Z n)%Q) by (change 0%Q with (inject_Z 0); rewrite <- Zlt_Qlt; lia).
  assert (Pj : (1 <= inject_Z j)%Q) by (change 1%Q with (inject_Z 1); rewrite <- Zle_Qle; lia).
  assert (Pjn : (inject_Z j + 1 <= inject_Z n)%Q).
  { change 1%Q with (inject_Z 1). rewrite <- inject_Z_plus, <- Zle_Qle. lia. }
  assert (Pn2 : (inject_Z n <= 2147483648)%Q).
  { change 2147483648%Q with (inject_Z (2 ^ 31)). rewrite <- Zle_Qle. exact Hn. }
  split.
  - assert (R : (inject_Z 1 * pow2 (-31) <= inject_Z j / inject_Z n)%Q).
    { rewrite tiny_pow2. change (inject_Z 1) with 1%Q. unfold tiny.
      apply Qle_shift_div_l; [exact Pn|]. lra. }
    pose proof (rnd_ge_repr _ 1 (-31) ltac:(lia) ltac:(unfold emin; lia) R) as K.
    rewrite tiny_pow2 in K. change (inject_Z 1) with 1%Q in K. lra.
  - assert (R : (inject_Z j / inject_Z n <= inject_Z (2 ^ 31 - 1) * pow2 (-31))%Q).
    { rewrite tiny_pow2. change (inject_Z (2 ^ 31 - 1)) with 2147483647%Q. unfold tiny.
      apply Qle_shift_div_r; [exact Pn|]. lra. }
    pose proof (rnd_le_repr _ (2 ^ 31 - 1) (-31) ltac:(lia) ltac:(unfold emin; lia) R) as K.
    rewrite tiny_pow2 in K. change (inject_Z (2 ^ 31 - 1)) with 2147483647%Q in K.
    unfold tiny in *. lra.
Qed.

Lemma point_idx_bounds i t :
  0 <= i < 150 -> (tiny <= t <= 1 - tiny)%Q ->
  (inject_Z i + tiny <= fadd (of_int i) t <= inject_Z i + 1 - tiny)%Q.
Proof.
  intros Hi [T1 T2]. unfold fadd. rewrite of_int_exact by lia. split.
  - assert (R : (inject_Z (i * 2 ^ 31 + 1) * pow2 (-31) <= inject_Z i + t)%Q).
    { rewrite tiny_pow2, inject_Z_plus, inject_Z_mult.
      change (inject_Z (2 ^ 31)) with 2147483648%Q. change (inject_Z 1) with 1%Q.
      unfold tiny in *. lra. }
    pose proof (rnd_ge_repr _ (i * 2 ^ 31 + 1) (-31) ltac:(lia) ltac:(unfold emin; lia) R) as K.
    rewrite tiny_pow2, inject_Z_plus, inject_Z_mult in K.
    change (inject_Z (2 ^ 31)) with 2147483648%Q in K. change (inject_Z 1) with 1%Q in K.
    unfold tiny in *. lra.
  - assert (R : (inject_Z i + t <= inject_Z ((i + 1) * 2 ^ 31 - 1) * pow2 (-31))%Q).
    { rewrite tiny_pow2, inject_Z_sub, inject_Z_mult, inject_Z_plus.
      change (inject_Z (2 ^ 31)) with 2147483648%Q. change (inject_Z 1) with 1%Q.
      unfold tiny in *. lra. }
    pose proof (rnd_le_repr _ ((i + 1) * 2 ^ 31 - 1) (-31) ltac:(lia) ltac:(unfold emin; lia) R) as K.
    rewrite tiny_pow2, inject_Z_sub, inject_Z_mult, inject_Z_plus in K.
    change (inject_Z (2 ^ 31)) with 2147483648%Q in K. change (inject_Z 1) with 1%Q in K.
    unfold tiny in *. lra.
Qed.

Lemma flt_false x y : (y <= x)%Q -> flt x y = false.
Proof.
  intros H. destruct (flt x y) eqn:E; [|reflexivity]. apply flt_spec in E. lra.
Qed.

Lemma flt_true x y : (x < y)%Q -> flt x y = true.
Proof. apply flt_spec. Qed.

Lemma substep_width_class size i j n :
  0 <= i < 149 -> 1 <= j < n -> n <= 2 ^ 31 ->
  substep_width size 150 i (int_truediv j n) = sample_width size 150 (class_sample i).
Proof.
  intros Hi Hj Hn.
  pose proof (point_idx_bounds i _ ltac:(lia) (truediv_bounds j n Hj Hn)) as [P1 P2].
  unfold substep_width, sample_width, class_sample.
  change (@fgt) with (fun x y => flt y x). cbv beta.
  set (p := fadd (of_int i) (int_truediv j n)) in *.
  assert (Q10 : forall c : Z, i < c -> flt p (inject_Z c) = true).
  { intros c Hc. apply flt_true. assert (inject_Z i + 1 <= inject_Z c)%Q.
    { change 1%Q with (inject_Z 1). rewrite <- inject_Z_plus, <- Zle_Qle. lia. }
    unfold tiny in *. lra. }
  assert (Q11 : forall c : Z, c <= i -> flt p (inject_Z c) = false).
  { intros c Hc. apply flt_false. assert (inject_Z c <= inject_Z i)%Q by (rewrite <- Zle_Qle; lia).
    unfold tiny in *. lra. }
  assert (Q20 : forall c : Z, c <= i -> flt (inject_Z c) p = true).
  { intros c Hc. apply flt_true. assert (inject_Z c <= inject_Z i)%Q by (rewrite <- Zle_Qle; lia).
    unfold tiny in *. lra. }
  assert (Q21 : forall c : Z, i < c -> flt (inject_Z c) p = false).
  { intros c Hc. apply flt_false. assert (inject_Z i + 1 <= inject_Z c)%Q.
    { change 1%Q with (inject_Z 1). rewrite <- inject_Z_plus, <- Zle_Qle. lia. }
    unfold tiny in *. lra. }
  change (150 - 10) with 140. change (150 - 20) with 130.
  destruct (Z_lt_dec i 10) as [C1|C1].
  { rewrite (Q10 10 C1). cbn [orb]. destruct (i <=? 129) eqn:E; [|lia].
    destruct (i <? 10) eqn:E'; [reflexivity|lia]. }
  rewrite (Q11 10) by lia. cbn [orb].
  destruct (Z_le_dec 140 i) as [C2|C2].
  { rewrite (Q20 140 C2). destruct (i <=? 129) eqn:E; [lia|].
    destruct (i + 1 <? 10) eqn:E1; [lia|]. destruct (140 <? i + 1) eqn:E2; [reflexivity|lia]. }
  rewrite (Q21 140) by lia.
  destruct (Z_lt_dec i 20) as [C3|C3].
  { rewrite (Q10 20 C3). cbn [orb]. destruct (i <=? 129) eqn:E; [|lia].
    destruct (i <? 10) eqn:E1; [lia|]. destruct (140 <? i) eqn:E2; [lia|].
    destruct (i <? 20) eqn:E3; [reflexivity|lia]. }
  rewrite (Q11 20) by lia. cbn [orb].
  destruct (Z_le_dec 130 i) as [C4|C4].
  { rewrite (Q20 130 C4). destruct (i <=? 129) eqn:E; [lia|].
    destruct (i + 1 <? 10) eqn:E1; [lia|]. destruct (140 <? i + 1) eqn:E2; [lia|].
    destruct (i + 1 <? 20) eqn:E3; [lia|]. destruct (130 <? i + 1) eqn:E4; [reflexivity|lia]. }
  rewrite (Q21 130) by lia.
  destruct (i <=? 129) eqn:E; [|lia].
  destruct (i <? 10) eqn:E1; [lia|]. destruct (140 <? i) eqn:E2; [lia|].
  destruct (i <? 20) eqn:E3; [lia|]. destruct (130 <? i) eqn:E4; [lia|]. reflexivity.
Qed.

(** *** A bound on [math.sqrt] *)

Lemma Qlog2_range (x : Q) (a b : Z) :
  (pow2 a <= x)%Q -> (x < pow2 b)%Q -> a <= Qlog2 x < b.
Proof.
  intros H1 H2. assert (Hx : (0 < x)%Q) by (pose proof (pow2_pos a); lra).
  destruct (Qlog2_spec x Hx) as [S1 S2]. split.
  - assert (a < Qlog2 x + 1); [|lia]. apply pow2_lt_inv. lra.
  - apply pow2_lt_inv. lra.
Qed.

Lemma fsqrt_le (x : Q) : (1 <= x)%Q -> (x <= pow2 63)%Q -> (fsqrt x <= pow2 32)%Q.
Proof.
  intros H1 H2.
  assert (Hx : (0 < x)%Q) by lra.
  destruct (proj1 (Qnum_pos_iff x) Hx) as [p Hp].
  unfold fsqrt. rewrite Hp.
  assert (HL : 0 <= Qlog2 x < 64).
  { apply Qlog2_range; [exact H1|]. eapply Qle_lt_trans; [exact H2|]. apply pow2_lt. lia. }
  set (l := Qlog2 x / 2).
  assert (Hl : 0 <= l <= 31) by (unfold l; Z.div_mod_to_equations; lia).
  replace (Z.max (l - 52) emin) with (l - 52) by (unfold emin; lia).
  set (e := l - 52). set (E := - e). assert (HE : 21 <= E <= 52) by (unfold E, e; lia).
  set (r := (x / pow2 (2 * e))%Q).
  assert (Hr : (r == x * inject_Z (2 ^ (2 * E)))%Q).
  { unfold r. rewrite <- (pow2_Z (2 * E)) by lia.
    replace (2 * e) with (- (2 * E)) by (unfold E; lia).
    unfold pow2. rewrite Qpower_opp. field.
    apply Qnot_eq_sym, Qlt_not_eq. apply (pow2_pos (2 * E)). }
  assert (Hr0 : (0 <= r)%Q).
  { rewrite Hr. apply Qmult_le_0_compat; [lra|]. rewrite <- (pow2_Z (2 * E)) by lia.
    apply Qlt_le_weak, pow2_pos. }
  assert (Hr1 : (r <= inject_Z (2 ^ (63 + 2 * E)))%Q).
  { rewrite Hr. rewrite Z.pow_add_r by lia. rewrite inject_Z_mult.
    apply Qmult_le_compat_r; [rewrite <- (pow2_Z 63) by lia; exact H2|].
    rewrite <- (pow2_Z (2 * E)) by lia. apply Qlt_le_weak, pow2_pos. }
  set (fl := Qfloor r).
  assert (Hfl : 0 <= fl <= 2 ^ (63 + 2 * E)).
  { unfold fl. split.
    - rewrite <- (Qfloor_Z 0). apply Qfloor_resp_le. exact Hr0.
    - rewrite <- (Qfloor_Z (2 ^ (63 + 2 * E))). apply Qfloor_resp_le. exact Hr1. }
  set (f := Z.sqrt fl).
  assert (Hf : 0 <= f /\ f + 1 <= 2 ^ (32 + E)).
  { pose proof (Z.sqrt_spec fl (proj1 Hfl)) as [Sq _]. fold f in Sq.
    pose proof (Z.sqrt_nonneg fl) as F0. fold f in F0. split; [exact F0|].
    assert (P : 0 < 2 ^ (32 + E)) by (apply Z.pow_pos_nonneg; lia).
    assert (K : 2 ^ (32 + E) * 2 ^ (32 + E) = 2 * 2 ^ (63 + 2 * E)).
    { rewrite <- Z.pow_add_r by lia. replace (32 + E + (32 + E)) with (1 + (63 + 2 * E)) by lia.
      rewrite Z.pow_add_r by lia. reflexivity. }
    assert (P2 : 0 < 2 ^ (63 + 2 * E)) by (apply Z.pow_pos_nonneg; lia).
    nia. }
  set (m := match Qcompare r ((inject_Z f + (1 # 2)) * (inject_Z f + (1 # 2))) with
            | Eq => if Z.even f then f else f + 1
            | Lt => f
            | Gt => f + 1
            end).
  assert (Hm : m <= 2 ^ (32 + E)).
  { unfold m. destruct (Qcompare _ _); [destruct (Z.even f)| |]; lia. }
  rewrite Qred_correct.
  apply Qle_trans with (inject_Z (2 ^ (32 + E)) * pow2 e)%Q.
  - apply Qmult_le_compat_r; [rewrite <- Zle_Qle; exact Hm | apply Qlt_le_weak, pow2_pos].
  - rewrite <- (pow2_Z (32 + E)) by lia. rewrite <- pow2_add.
    replace (32 + E + e) with 32 by (unfold E; lia). apply Qle_refl.
Qed.

Lemma fsqrt_zero (x : Q) : (x == 0)%Q -> fsqrt x = 0%Q.
Proof. intros H. apply Qnum_zero_iff in H. unfold fsqrt. rewrite H. reflexivity. Qed.

Lemma steps_ge_8 p1 p2 : 8 <= steps p1 p2.
Proof. unfold steps. destruct p1, p2. lia. Qed.

Lemma steps_le p1 p2 :
  0 <= fst p1 <= 2 ^ 31 -> 0 <= snd p1 <= 2 ^ 31 ->
  0 <= fst p2 <= 2 ^ 31 -> 0 <= snd p2 <= 2 ^ 31 ->
  steps p1 p2 <= 2 ^ 31.
Proof.
  destruct p1 as [x1 y1], p2 as [x2 y2]. cbn [fst snd]. intros X1 Y1 X2 Y2.
  unfold steps. set (d := (x2 - x1) ^ 2 + (y2 - y1) ^ 2).
  assert (Hd : 0 <= d <= 2 ^ 63).
  { unfold d. assert (- 2 ^ 31 <= x2 - x1 <= 2 ^ 31) by lia.
    assert (- 2 ^ 31 <= y2 - y1 <= 2 ^ 31) by lia.
    assert ((x2 - x1) ^ 2 <= 2 ^ 62) by (change (2 ^ 62) with (2 ^ 31 * 2 ^ 31); nia).
    assert ((y2 - y1) ^ 2 <= 2 ^ 62) by (change (2 ^ 62) with (2 ^ 31 * 2 ^ 31); nia).
    assert (0 <= (x2 - x1) ^ 2) by nia. assert (0 <= (y2 - y1) ^ 2) by nia.
    change (2 ^ 63) with (2 ^ 62 + 2 ^ 62). lia. }
  apply Z.max_lub; [|lia].
  apply to_int_le_Z. unfold fdiv. rewrite (of_int_exact 4) by lia.
  apply rnd_le_Z; [lia|].
  apply Qle_shift_div_r; [reflexivity|].
  apply Qle_trans with (pow2 32); [|vm_compute; discriminate].
  destruct (Z.eq_dec d 0) as [->|NZ].
  - rewrite fsqrt_zero by reflexivity. apply Qlt_le_weak, pow2_pos.
  - apply fsqrt_le; unfold of_int.
    + apply (rnd_ge_Z _ 1); [lia|]. rewrite <- Zle_Qle. lia.
    + assert (R : (inject_Z d <= inject_Z 1 * pow2 63)%Q).
      { rewrite (pow2_Z 63) by lia. change (inject_Z 1) with 1%Q. rewrite Qmult_1_l.
        rewrite <- Zle_Qle. lia. }
      pose proof (rnd_le_repr _ 1 63 ltac:(lia) ltac:(unfold emin; lia) R) as K.
      change (inject_Z 1) with 1%Q in K. rewrite Qmult_1_l in K. exact K.
Qed.

Lemma scale_le size : size <= INT_MAX -> (scale size <= inject_Z (2 ^ 21))%Q.
Proof.
  intros H. eapply Qle_trans; [apply (scale_mono _ _ H)|]. vm_compute. discriminate.
Qed.

Section Coordinates.

Variable sin cos : Q -> Q.

Lemma curve_point_range size i :
  libm_range sin cos -> 0 <= size <= INT_MAX -> 0 <= i < num_points ->
  0 <= fst (curve_point sin cos size i) <= 2 ^ 31
  /\ 0 <= snd (curve_point sin cos size i) <= 2 ^ 31.
Proof.
  intros R Hs Hi. rewrite curve_point_of. unfold point_of. cbn [fst snd].
  destruct (R i Hi) as [[S1 S2] [C1 C2]].
  pose proof (forallb_seqZ _ _ _ range_table i Hi) as T. cbv beta in T.
  destruct (andb_prop _ _ T) as [T123 T4]. destruct (andb_prop _ _ T123) as [T12 T3].
  destruct (andb_prop _ _ T12) as [T1 T2].
  apply Qle_bool_iff in T1, T2, T3, T4.
  pose proof (Qle_trans _ _ _ T1 (vx_of_mono i _ _ Hi S1)) as X0.
  pose proof (Qle_trans _ _ _ (vx_of_mono i _ _ Hi S2) T2) as X1.
  pose proof (Qle_trans _ _ _ T3 (vy_of_mono i _ _ Hi C1)) as Y0.
  pose proof (Qle_trans _ _ _ (vy_of_mono i _ _ Hi C2) T4) as Y1.
  pose proof (scale_nonneg size (proj1 Hs)) as K0.
  pose proof (scale_le size (proj2 Hs)) as K1.
  assert (G : forall v : Q, (0 <= v)%Q -> (v <= 1024)%Q ->
              0 <= to_int (fmul v (scale size)) <= 2 ^ 31).
  { intros v V0 V1. split.
    - apply to_int_nonneg, rnd_nonneg, Qmult_le_0_compat; assumption.
    - apply to_int_le_Z, rnd_le_Z; [lia|].
      apply Qle_trans with (1024 * inject_Z (2 ^ 21))%Q; [|vm_compute; discriminate].
      apply Qle_trans with (v * inject_Z (2 ^ 21))%Q.
      + rewrite !(Qmult_comm v). apply Qmult_le_compat_r; assumption.
      + apply Qmult_le_compat_r; [exact V1 | vm_compute; discriminate]. }
  split; apply G; assumption.
Qed.

End Coordinates.

Lemma segment_table :
  (let pts := points Libm.sin_model Libm.cos_model 1024 in
   forallb (fun i => steps (item pts i) (item pts (i + 1)) =? 8) (seqZ 0 149)) = true.
Proof. vm_compute. reflexivity. Qed.

Section Segments.

Variable sin cos : Q -> Q.

(** C7 (segments), amended: for every size that [Image.new] accepts and
    every pair of consecutive samples [i], [i + 1], the segment gets
    [steps = max(int(length / 4), 8)] steps, and one white circle is drawn
    for each [j = 1 .. steps - 1], centred at the point interpolated at
    [t = j / steps].  Its width is not blended: it is the taper class that
    the thresholds give the fractional index [i + t], which is the width
    of sample [i] for [i <= 129] and of sample [i + 1] for [i >= 130]. *)
Theorem segment_substeps (size i : Z) :
  libm_range sin cos -> 0 <= size <= INT_MAX -> 0 <= i < 149 ->
  let pts := points sin cos size in
  let p1 := item pts i in
  let p2 := item pts (i + 1) in
  let n := steps p1 p2 in
  8 <= n
  /\ n = Z.max (to_int (fdiv (fsqrt (of_int ((fst p2 - fst p1) ^ 2 + (snd p2 - snd p1) ^ 2)))
                            (of_int 4))) 8
  /\ length (segment_circles size pts i) = Z.to_nat (n - 1)
  /\ segment_circles size pts i
     = map (fun j => let '(x, y) := substep_point p1 p2 (int_truediv j n) in
                     (stroke_box x y (sample_width size 150 (class_sample i)), white))
           (seqZ 1 (n - 1))
  /\ (forall j, 1 <= j < n ->
        substep_width size (len pts) i (int_truediv j n)
        = sample_width size (len pts) (class_sample i)).
Proof.
  intros R Hs Hi pts p1 p2 n.
  assert (Hlen : len pts = 150) by apply points_length.
  assert (Hn8 : 8 <= n) by apply steps_ge_8.
  assert (Hn : n <= 2 ^ 31).
  { unfold n, p1, p2, pts. rewrite !points_item by (unfold num_points; lia).
    destruct (curve_point_range sin cos size i R Hs ltac:(unfold num_points; lia)) as [A1 A2].
    destruct (curve_point_range sin cos size (i + 1) R Hs ltac:(unfold num_points; lia)) as [B1 B2].
    apply steps_le; assumption. }
  assert (W : forall j, 1 <= j < n ->
    substep_width size (len pts) i (int_truediv j n)
    = sample_width size (len pts) (class_sample i)).
  { intros j Hj. rewrite Hlen. apply substep_width_class; assumption. }
  split; [exact Hn8|]. split; [unfold n, steps; destruct p1, p2; reflexivity|].
  split; [unfold segment_circles; rewrite length_map, length_seqZ; reflexivity|].
  split; [|exact W].
  unfold segment_circles. fold p1 p2 n. apply map_ext_in. intros j Hj.
  apply elem_of_seqZ_iff in Hj. rewrite W by lia. rewrite Hlen. reflexivity.
Qed.

End Segments.

Lemma segment_substeps_witness :
  8 <= steps (item (points Libm.sin_model Libm.cos_model 1024) 9)
             (item (points Libm.sin_model Libm.cos_model 1024) (9 + 1)).
Proof.
  apply (segment_substeps Libm.sin_model Libm.cos_model 1024 9 model_in_range);
    [unfold INT_MAX; lia | lia].
Defined.

(** C7, as stated, fails in its last clause: at size 1024 the segment from
    sample 9 (width 9) to sample 10 (width 12) has 8 steps, and the circle
    at its middle step [j = 4], [t = 1/2], has width 9, where interpolating
    between the two taper classes would give 10. *)
Lemma substep_width_not_interpolated :
  exists i j,
    0 <= i < 149 /\
    forall sin cos, libm_accurate sin cos ->
      let pts := points sin cos 1024 in
      let n := steps (item pts i) (item pts (i + 1)) in
      1 <= j < n
      /\ substep_width 1024 (len pts) i (int_truediv j n)
         <> interpolated_width (sample_width 1024 (len pts) i)
                               (sample_width 1024 (len pts) (i + 1))
                               (int_truediv j n).
Proof.
  exists 9, 4. split; [lia|]. intros sin cos A pts n.
  assert (En : n = 8).
  { unfold n, pts. rewrite (points_agree sin cos 1024 ltac:(lia) pinned_1024 A).
    pose proof segment_table as T. cbv zeta in T.
    pose proof (forallb_seqZ _ _ _ T 9 ltac:(lia)) as K. cbv beta in K.
    apply Z.eqb_eq in K. exact K. }
  assert (El : len pts = 150) by apply points_length.
  rewrite En, El. split; [lia|].
  replace (substep_width 1024 150 9 (int_truediv 4 8)) with 9 by (vm_compute; reflexivity).
  replace (interpolated_width (sample_width 1024 150 9) (sample_width 1024 150 (9 + 1))
             (int_truediv 4 8)) with 10 by (vm_compute; reflexivity).
  lia.
Qed.


(** * Further properties of the script *)

(** ** The entry point, whatever the asset directory is *)

Section EntryPointCases.

Variable sin cos : Q -> Q.
Variable painted : box -> Z -> Z -> bool.








(** ** [generate_icon] at its edges *)


(** X5 (running twice): a second run of [generate_icon] with the same
    directory and size, in the state the first run left, returns what the
    first returned and leaves the directories and the files exactly as the
    first run left them: the icon is overwritten by an equal one. *)
Theorem generate_icon_twice (output_dir : path) (size : Z) (w : world) :
  let r1 := generate_icon sin cos painted output_dir size w in
  let r2 := generate_icon sin cos painted output_dir size (snd r1) in
  fst r2 = fst r1 /\ dirs (snd r2) = dirs (snd r1) /\ files (snd r2) = files (snd r1).
Proof.
  intros r1 r2. unfold r2, r1. rewrite !generate_icon_run.
  destruct (Image_new RGB (size, size) base_fill) as [e|img]; cbn [fst snd dirs files].
  - unfold after_makedirs. cbn [dirs files]. split; [reflexivity|]. split; [set_solver|reflexivity].
  - cbv zeta. cbn [fst snd dirs files]. split; [reflexivity|]. split; [set_solver|].
    apply insert_insert_eq.
Qed.

End EntryPointCases.




(** ** File names *)




Section TwoSizes.

Variable sin cos : Q -> Q.
Variable painted : box -> Z -> Z -> bool.


End TwoSizes.


(** ** The scale factor is exact *)

Lemma scale_exact size :
  Z.abs size < 2 ^ 53 -> (scale size == inject_Z size * pow2 (-10))%Q.
Proof.
  intros H. unfold scale, fdiv. rewrite of_int_exact by exact H.
  rewrite (rnd_wd (inject_Z size / c1024) (inject_Z size * pow2 (-10))).
  - apply rnd_repr; [exact H | unfold emin; lia].
  - unfold c1024. change (pow2 (-10)) with (1 # 1024)%Q. field.
Qed.

Lemma fmul_scale_exact c size :
  Z.abs size < 2 ^ 53 -> Z.abs (c * size) < 2 ^ 53 ->
  (fmul (inject_Z c) (scale size) == inject_Z (c * size) * pow2 (-10))%Q.
Proof.
  intros H1 H2. unfold fmul.
  rewrite (rnd_wd (inject_Z c * scale size) (inject_Z (c * size) * pow2 (-10))).
  - apply rnd_repr; [exact H2 | unfold emin; lia].
  - rewrite (scale_exact size H1), inject_Z_mult. ring.
Qed.

Lemma to_int_shift n : 0 <= n -> to_int (inject_Z n * pow2 (-10)) = n / 1024.
Proof.
  intros H. change (pow2 (-10)) with (1 # 1024)%Q. rewrite to_int_floor.
  - unfold Qfloor. cbn [Qmult Qnum Qden inject_Z]. rewrite Z.mul_1_r. reflexivity.
  - apply Qmult_le_0_compat; [|discriminate].
    change 0%Q with (inject_Z 0). rewrite <- Zle_Qle. exact H.
Qed.

(** An integer below 1024, scaled and cut: [int(c * scale) = c * size // 1024]. *)
Lemma scaled_int c size :
  0 <= c <= 1024 -> 0 <= size <= INT_MAX ->
  to_int (fmul (inject_Z c) (scale size)) = c * size / 1024.
Proof.
  intros Hc Hs. unfold INT_MAX in Hs.
  assert (H1 : Z.abs size < 2 ^ 53) by lia.
  assert (H2 : Z.abs (c * size) < 2 ^ 53) by nia.
  rewrite (to_int_wd _ _ (fmul_scale_exact c size H1 H2)).
  apply to_int_shift. nia.
Qed.

Lemma line_width_div size : 0 <= size <= INT_MAX -> line_width size = size / 64.
Proof.
  intros Hs. unfold line_width. rewrite of_int_exact by (cbn; lia).
  rewrite scaled_int by (assumption || lia).
  change 1024 with (16 * 64). apply Z.div_mul_cancel_l; lia.
Qed.

(** X7 (line width): for every size that [Image.new] accepts, the float
    [scale = size / 1024.0] is the exact quotient, and
    [line_width = int(16 * scale)] is [size // 64]; the stroke has width 0
    below size 64 and grows by one pixel every 64 pixels of size. *)
Theorem line_width_closed_form (size : Z) :
  0 <= size <= INT_MAX ->
  (scale size == inject_Z size / 1024)%Q /\ line_width size = size / 64.
Proof.
  intros Hs. split; [|apply line_width_div, Hs].
  rewrite scale_exact by (unfold INT_MAX in Hs; lia).
  change (pow2 (-10)) with (1 # 1024)%Q. field.
Qed.

(** X7, witness: size 1000. *)
Lemma line_width_closed_form_witness : line_width 1000 = 1000 / 64.
Proof.
  apply (line_width_closed_form 1000). unfold INT_MAX. lia.
Defined.

(** ** Interpolation never overshoots *)

Lemma lerp_between (a b : Z) (t : Q) :
  Z.abs a <= 2 ^ 31 -> Z.abs b <= 2 ^ 31 -> (0 <= t <= 1)%Q ->
  Z.min a b <= to_int (fadd (of_int a) (fmul (of_int (b - a)) t)) <= Z.max a b.
Proof.
  intros Ha Hb [T0 T1].
  rewrite (of_int_exact a), (of_int_exact (b - a)) by lia.
  set (d := b - a). unfold fadd, fmul.
  destruct (Z_le_gt_dec a b) as [L|G].
  - assert (D0 : (0 <= inject_Z d)%Q)
      by (change 0%Q with (inject_Z 0); rewrite <- Zle_Qle; unfold d; lia).
    assert (P0 : (inject_Z 0 <= inject_Z d * t)%Q)
      by (change (inject_Z 0) with 0%Q; apply Qmult_le_0_compat; assumption).
    assert (P1 : (inject_Z d * t <= inject_Z d)%Q) by nra.
    pose proof (rnd_ge_Z _ 0 ltac:(lia) P0) as R0.
    pose proof (rnd_le_Z _ d ltac:(unfold d; lia) P1) as R1.
    change (inject_Z 0) with 0%Q in R0.
    split.
    + rewrite Z.min_l by lia. apply to_int_ge_Z, rnd_ge_Z; [lia|]. lra.
    + rewrite Z.max_r by lia. apply to_int_le_Z, rnd_le_Z; [lia|].
      replace b with (a + d) by (unfold d; lia). rewrite inject_Z_plus. lra.
  - assert (D0 : (inject_Z d <= 0)%Q)
      by (change 0%Q with (inject_Z 0); rewrite <- Zle_Qle; unfold d; lia).
    assert (P0 : (inject_Z d * t <= inject_Z 0)%Q) by (change (inject_Z 0) with 0%Q; nra).
    assert (P1 : (inject_Z d <= inject_Z d * t)%Q) by nra.
    pose proof (rnd_le_Z _ 0 ltac:(lia) P0) as R0.
    pose proof (rnd_ge_Z _ d ltac:(unfold d; lia) P1) as R1.
    change (inject_Z 0) with 0%Q in R0.
    split.
    + rewrite Z.min_r by lia. apply to_int_ge_Z, rnd_ge_Z; [lia|].
      replace b with (a + d) by (unfold d; lia). rewrite inject_Z_plus. lra.
    + rewrite Z.max_l by lia. apply to_int_le_Z, rnd_le_Z; [lia|]. lra.
Qed.

Lemma substep_point_between (p1 p2 : Z * Z) (j n : Z) :
  Z.abs (fst p1) <= 2 ^ 31 -> Z.abs (snd p1) <= 2 ^ 31 ->
  Z.abs (fst p2) <= 2 ^ 31 -> Z.abs (snd p2) <= 2 ^ 31 ->
  1 <= j < n -> n <= 2 ^ 31 ->
  Z.min (fst p1) (fst p2) <= fst (substep_point p1 p2 (int_truediv j n))
                          <= Z.max (fst p1) (fst p2)
  /\ Z.min (snd p1) (snd p2) <= snd (substep_point p1 p2 (int_truediv j n))
                             <= Z.max (snd p1) (snd p2).
Proof.
  destruct p1 as [x1 y1], p2 as [x2 y2]. cbn [fst snd]. intros X1 Y1 X2 Y2 Hj Hn.
  pose proof (truediv_bounds j n Hj Hn) as [T0 T1]. unfold tiny in T0, T1.
  assert (T : (0 <= int_truediv j n <= 1)%Q) by (split; lra).
  unfold substep_point. cbn [fst snd]. split; apply lerp_between; assumption.
Qed.

(** X8 (sub-steps stay between their samples): for two points with
    coordinates of magnitude at most [2^31] and a step [j] of [n <= 2^31]
    steps, the point computed at [t = j / n] by
    [int(x1 + (x2 - x1) * t)], [int(y1 + (y2 - y1) * t)] lies in the
    bounding box of the two points: the float arithmetic never overshoots
    an end of the segment. *)
Theorem substep_between (p1 p2 : Z * Z) (j n : Z) :
  Z.abs (fst p1) <= 2 ^ 31 -> Z.abs (snd p1) <= 2 ^ 31 ->
  Z.abs (fst p2) <= 2 ^ 31 -> Z.abs (snd p2) <= 2 ^ 31 ->
  1 <= j < n -> n <= 2 ^ 31 ->
  let p := substep_point p1 p2 (int_truediv j n) in
  Z.min (fst p1) (fst p2) <= fst p <= Z.max (fst p1) (fst p2)
  /\ Z.min (snd p1) (snd p2) <= snd p <= Z.max (snd p1) (snd p2).
Proof. intros X1 Y1 X2 Y2 Hj Hn p. apply substep_point_between; assumption. Qed.

(** X8, witness: the third of eight steps between two samples. *)
Lemma substep_between_witness :
  let p := substep_point (200, 798) (204, 797) (int_truediv 3 8) in
  Z.min 200 204 <= fst p <= Z.max 200 204 /\ Z.min 798 797 <= snd p <= Z.max 798 797.
Proof.
  apply (substep_between (200, 798) (204, 797) 3 8); cbn [fst snd]; lia.
Defined.

(** ** The curve at every size *)

(** Before scaling, the abscissa of a sample is within 80 of the segment
    from 200 to 800 and its ordinate within 48 of the segment from 750 to
    250, whatever value in [[-1, 1]] the sine and the cosine return. *)
Lemma wave_table :
  forallb (fun i => Qle_bool 120 (vx_of i (-1)) && Qle_bool (vx_of i 1) 880
                    && Qle_bool 202 (vy_of i (-1)) && Qle_bool (vy_of i 1) 798)
          (seqZ 0 150) = true.
Proof. vm_compute. reflexivity. Qed.

Lemma widths_le size :
  0 <= size <= INT_MAX ->
  0 <= line_width size <= size / 64
  /\ 0 <= to_int (fmul (of_int (line_width size)) c06) <= line_width size
  /\ 0 <= to_int (fmul (of_int (line_width size)) c08) <= line_width size.
Proof.
  intros Hs. pose proof (line_width_div size Hs) as E.
  assert (L0 : 0 <= line_width size) by (rewrite E; apply Z.div_pos; lia).
  assert (L1 : line_width size <= INT_MAX).
  { rewrite E. unfold INT_MAX in *. apply Z.div_le_upper_bound; lia. }
  split; [lia|].
  destruct literal_bounds as (B0 & B1 & B2 & B3 & _).
  set (lw := line_width size) in *.
  assert (Hlw : Z.abs lw < 2 ^ 53) by (unfold INT_MAX in L1; lia).
  rewrite (of_int_exact lw Hlw).
  assert (P : (0 <= inject_Z lw)%Q) by (change 0%Q with (inject_Z 0); rewrite <- Zle_Qle; lia).
  repeat split.
  - apply to_int_nonneg, rnd_nonneg. apply Qmult_le_0_compat; [exact P | exact B0].
  - apply to_int_le_Z. apply rnd_le_Z; [exact Hlw|]. nra.
  - apply to_int_nonneg, rnd_nonneg. apply Qmult_le_0_compat; [exact P | lra].
  - apply to_int_le_Z. apply rnd_le_Z; [exact Hlw|]. nra.
Qed.

Lemma taper_choice_le (P Q : bool) (a b c d : Z) :
  0 <= a <= c -> 0 <= b <= c -> 0 <= c <= d ->
  0 <= (if P then a else if Q then b else c) <= d.
Proof. intros. destruct P; [lia|]. destruct Q; lia. Qed.

Lemma sample_width_le size n i :
  0 <= size <= INT_MAX -> 0 <= sample_width size n i <= size / 64.
Proof.
  intros Hs. destruct (widths_le size Hs) as (L & W6 & W8).
  apply taper_choice_le; assumption.
Qed.

Lemma substep_width_le size n i t :
  0 <= size <= INT_MAX -> 0 <= substep_width size n i t <= size / 64.
Proof.
  intros Hs. destruct (widths_le size Hs) as (L & W6 & W8).
  apply taper_choice_le; assumption.
Qed.

(** The drawing calls of the curve: one per sample, then one per sub-step
    of every segment. *)
Lemma in_curve_calls size (pts : list (Z * Z)) call :
  In call (sample_circles size pts ++ connect_circles size pts) ->
  (exists i, 0 <= i < len pts
     /\ call = let '(x, y) := item pts i in
               (stroke_box x y (sample_width size (len pts) i), white))
  \/ (exists i j, 0 <= i < len pts - 1
        /\ 1 <= j < steps (item pts i) (item pts (i + 1))
        /\ call = let '(x, y) := substep_point (item pts i) (item pts (i + 1))
                                   (int_truediv j (steps (item pts i) (item pts (i + 1)))) in
                  (stroke_box x y
                     (substep_width size (len pts) i
                        (int_truediv j (steps (item pts i) (item pts (i + 1))))), white)).
Proof.
  intros H. apply in_app_or in H as [H|H].
  - left. unfold sample_circles in H. apply in_map_iff in H as (i & <- & Hi).
    apply elem_of_seqZ_iff in Hi. exists i. split; [lia | reflexivity].
  - right. unfold connect_circles in H. apply in_flat_map in H as (i & Hi & H).
    apply elem_of_seqZ_iff in Hi.
    unfold segment_circles in H. apply in_map_iff in H as (j & <- & Hj).
    apply elem_of_seqZ_iff in Hj. exists i, j. split; [lia|]. split; [lia | reflexivity].
Qed.

Lemma in_sample_circles size pts i :
  0 <= i < len pts ->
  In (let '(x, y) := item pts i in
      (stroke_box x y (sample_width size (len pts) i), white))
     (sample_circles size pts).
Proof.
  intros Hi. unfold sample_circles.
  apply (in_map (fun i => let '(x, y) := item pts i in
                          (stroke_box x y (sample_width size (len pts) i), white))).
  apply elem_of_seqZ_iff. lia.
Qed.

Lemma sample_circle_inside size x y w :
  1 <= size ->
  120 * size / 1024 <= x <= 880 * size / 1024 ->
  202 * size / 1024 <= y <= 798 * size / 1024 ->
  0 <= w <= size / 64 ->
  0 <= x - w / 2 /\ x + w / 2 < size /\ 0 <= y - w / 2 /\ y + w / 2 < size.
Proof. intros Hs Hx Hy Hw. Z.div_mod_to_equations. lia. Qed.

Section AnySize.

Variable sin cos : Q -> Q.

Lemma curve_point_bounds size i :
  libm_range sin cos -> 0 <= size <= INT_MAX -> 0 <= i < num_points ->
  120 * size / 1024 <= fst (curve_point sin cos size i) <= 880 * size / 1024
  /\ 202 * size / 1024 <= snd (curve_point sin cos size i) <= 798 * size / 1024.
Proof.
  intros R Hs Hi. rewrite curve_point_of. unfold point_of. cbn [fst snd].
  destruct (R i Hi) as [[S1 S2] [C1 C2]].
  pose proof (forallb_seqZ _ _ _ wave_table i Hi) as T. cbv beta in T.
  destruct (andb_prop _ _ T) as [T123 T4]. destruct (andb_prop _ _ T123) as [T12 T3].
  destruct (andb_prop _ _ T12) as [T1 T2].
  apply Qle_bool_iff in T1, T2, T3, T4.
  pose proof (Qle_trans _ _ _ T1 (vx_of_mono i _ _ Hi S1)) as X0.
  pose proof (Qle_trans _ _ _ (vx_of_mono i _ _ Hi S2) T2) as X1.
  pose proof (Qle_trans _ _ _ T3 (vy_of_mono i _ _ Hi C1)) as Y0.
  pose proof (Qle_trans _ _ _ (vy_of_mono i _ _ Hi C2) T4) as Y1.
  pose proof (scale_nonneg size (proj1 Hs)) as K.
  rewrite <- (scaled_int 120 size), <- (scaled_int 880 size),
          <- (scaled_int 202 size), <- (scaled_int 798 size) by (assumption || lia).
  repeat split; apply to_int_mono, fmul_mono_l; assumption.
Qed.

Lemma sample_inside size i :
  libm_range sin cos -> 1 <= size <= INT_MAX -> 0 <= i < num_points ->
  forall x y w, curve_point sin cos size i = (x, y) -> 0 <= w <= size / 64 ->
  0 <= x - w / 2 /\ x + w / 2 < size /\ 0 <= y - w / 2 /\ y + w / 2 < size.
Proof.
  intros R Hs Hi x y w E Hw.
  destruct (curve_point_bounds size i R ltac:(lia) Hi) as [Bx By].
  rewrite E in Bx, By. cbn [fst snd] in Bx, By.
  apply sample_circle_inside; [lia | assumption | assumption | assumption].
Qed.

Lemma substep_inside size i j :
  libm_range sin cos -> 1 <= size <= INT_MAX -> 0 <= i < num_points - 1 ->
  1 <= j < steps (curve_point sin cos size i) (curve_point sin cos size (i + 1)) ->
  forall x y w,
    substep_point (curve_point sin cos size i) (curve_point sin cos size (i + 1))
      (int_truediv j (steps (curve_point sin cos size i) (curve_point sin cos size (i + 1))))
    = (x, y) ->
    0 <= w <= size / 64 ->
    0 <= x - w / 2 /\ x + w / 2 < size /\ 0 <= y - w / 2 /\ y + w / 2 < size.
Proof.
  intros R Hs Hi Hj x y w E Hw. assert (Hs' : 0 <= size <= INT_MAX) by lia.
  destruct (curve_point_bounds size i R Hs' ltac:(lia)) as [Bx1 By1].
  destruct (curve_point_bounds size (i + 1) R Hs' ltac:(lia)) as [Bx2 By2].
  revert Hj E Bx1 By1 Bx2 By2.
  generalize (curve_point sin cos size i) (curve_point sin cos size (i + 1)).
  intros p1 p2 Hj E Bx1 By1 Bx2 By2.
  assert (U : 880 * size / 1024 <= 2 ^ 31 /\ 798 * size / 1024 <= 2 ^ 31
              /\ 0 <= 120 * size / 1024 /\ 0 <= 202 * size / 1024).
  { unfold INT_MAX in Hs'. clear - Hs'. Z.div_mod_to_equations. lia. }
  assert (Hn : steps p1 p2 <= 2 ^ 31) by (apply steps_le; lia).
  pose proof (substep_point_between p1 p2 j (steps p1 p2) ltac:(lia) ltac:(lia) ltac:(lia)
                ltac:(lia) Hj Hn) as S.
  rewrite E in S. cbn [fst snd] in S. destruct S as [Sx Sy].
  apply sample_circle_inside; [lia | lia | lia | assumption].
Qed.

(** X9 (the curve stays on the canvas at every size): for every size from
    1 up to the largest that [Image.new] accepts, and whatever values in
    [[-1, 1]] the sine and the cosine return at the sample arguments, every
    circle drawn for the curve, at a sample or at a sub-step, has its
    bounding box [[x - w//2, y - w//2, x + w//2, y + w//2]] inside
    [[0, size)]: the curve never relies on clipping. *)
Theorem curve_within_canvas_at_any_size (size : Z) (call : box * rgb) :
  libm_range sin cos -> 1 <= size <= INT_MAX ->
  In call (draw_elegant_curve sin cos size) ->
  exists x y w,
    call = (stroke_box x y w, white)
    /\ 0 <= x - w / 2 /\ x + w / 2 < size /\ 0 <= y - w / 2 /\ y + w / 2 < size.
Proof.
  intros R Hs H. assert (Hs' : 0 <= size <= INT_MAX) by lia.
  destruct (in_curve_calls size (points sin cos size) call H)
    as [(i & Hi & ->)|(i & j & Hi & Hj & ->)];
    rewrite points_length in Hi; rewrite !points_item in * by lia.
  - destruct (curve_point sin cos size i) as [x y] eqn:E.
    exists x, y, (sample_width size (len (points sin cos size)) i).
    split; [reflexivity|].
    apply (sample_inside size i R Hs Hi x y _ E).
    apply sample_width_le, Hs'.
  - destruct (substep_point _ _ _) as [x y] eqn:E.
    exists x, y, (substep_width size (len (points sin cos size)) i
                    (int_truediv j (steps (curve_point sin cos size i)
                                          (curve_point sin cos size (i + 1))))).
    split; [reflexivity|].
    apply (substep_inside size i j R Hs Hi Hj x y _ E).
    apply substep_width_le, Hs'.
Qed.

(** X10 (the first sample): at every size that [Image.new] accepts, on a
    platform with [sin(0) = 0] and [cos(0) = 1], the first sample is
    [(200 * size // 1024, 798 * size // 1024)]: the sine offset vanishes and
    the cosine offset is [80 * 0.6 * 1 = 48], so the curve starts 48
    unscaled pixels below the start point (200, 750). *)
Theorem first_sample (size : Z) :
  libm_accurate sin cos -> 0 <= size <= INT_MAX ->
  curve_point sin cos size 0 = (200 * size / 1024, 798 * size / 1024).
Proof.
  intros (S0 & C0 & _) Hs. rewrite curve_point_of.
  destruct model_at_zero as (_ & _ & Es & Ec). rewrite Es, Ec.
  rewrite (point_of_wd size 0 _ 0 _ 1 S0 C0). unfold point_of.
  replace (vx_of 0 0) with (inject_Z 200) by (vm_compute; reflexivity).
  replace (vy_of 0 1) with (inject_Z 798) by (vm_compute; reflexivity).
  rewrite !scaled_int by (assumption || lia). reflexivity.
Qed.

End AnySize.

(** X9, witness: the circle of the first sample at size 512, on the model
    platform. *)
Lemma curve_within_canvas_at_any_size_witness :
  exists x y w,
    (let '(x, y) := item (points Libm.sin_model Libm.cos_model 512) 0 in
     (stroke_box x y (sample_width 512 (len (points Libm.sin_model Libm.cos_model 512)) 0),
      white))
    = (stroke_box x y w, white)
    /\ 0 <= x - w / 2 /\ x + w / 2 < 512 /\ 0 <= y - w / 2 /\ y + w / 2 < 512.
Proof.
  apply (curve_within_canvas_at_any_size Libm.sin_model Libm.cos_model 512 _
           model_in_range).
  - unfold INT_MAX. lia.
  - apply in_or_app. left. apply in_sample_circles.
    rewrite points_length. unfold num_points. lia.
Defined.

(** X10, witness: size 512, model platform. *)
Lemma first_sample_witness :
  curve_point Libm.sin_model Libm.cos_model 512 0 = (200 * 512 / 1024, 798 * 512 / 1024).
Proof.
  apply (first_sample Libm.sin_model Libm.cos_model 512 model_is_accurate).
  unfold INT_MAX. lia.
Defined.

(** ** The background loop *)

Lemma shrink_nonneg i : 0 <= i < 30 -> (0 <= shrink i)%Q.
Proof.
  intros Hi. destruct (Z.eq_dec i 0) as [->|N].
  - vm_compute. discriminate.
  - replace i with (i - 1 + 1) by lia. apply (shrink_step (i - 1)). lia.
Qed.

Lemma shrink_mono i j : 0 <= i -> i <= j -> j < 30 -> (shrink j <= shrink i)%Q.
Proof.
  intros Hi Hij Hj.
  assert (G : forall n : nat, i + Z.of_nat n < 30 -> (shrink (i + Z.of_nat n) <= shrink i)%Q).
  { induction n as [|n IH]; intros Hn.
    - replace (i + Z.of_nat 0) with i by lia. apply Qle_refl.
    - replace (i + Z.of_nat (S n)) with (i + Z.of_nat n + 1) by lia.
      destruct (shrink_step (i + Z.of_nat n) ltac:(lia)) as (_ & S1 & _).
      specialize (IH ltac:(lia)). lra. }
  replace j with (i + Z.of_nat (Z.to_nat (j - i))) by lia. apply G. lia.
Qed.

Lemma radius_of_mono_layer m i j :
  0 <= m -> 0 <= i -> i <= j -> j < 30 -> radius_of m j <= radius_of m i.
Proof.
  intros Hm Hi Hij Hj. unfold radius_of. apply to_int_mono, fmul_mono_r.
  - unfold of_int. apply rnd_nonneg. change 0%Q with (inject_Z 0). rewrite <- Zle_Qle. exact Hm.
  - apply shrink_mono; assumption.
Qed.

Lemma radius_of_mono_size m1 m2 i :
  m1 <= m2 -> 0 <= i < 30 -> radius_of m1 i <= radius_of m2 i.
Proof.
  intros Hm Hi. unfold radius_of. apply to_int_mono, fmul_mono_l.
  - apply shrink_nonneg, Hi.
  - unfold of_int. apply rnd_mono. rewrite <- Zle_Qle. exact Hm.
Qed.

Lemma radius_of_negative m i : m <= 0 -> 0 <= i < 30 -> radius_of m i <= 0.
Proof.
  intros Hm Hi. pose proof (radius_of_mono_size m 0 i Hm Hi) as K.
  replace (radius_of 0 i) with 0 in K; [exact K|].
  unfold radius_of. replace (of_int 0) with 0%Q by reflexivity.
  unfold fmul. rewrite (rnd_wd (0 * shrink i) 0) by ring. reflexivity.
Qed.

(** A later layer has no larger radius, or none at all. *)
Lemma layer_radius_order size i j :
  0 <= i -> i <= j -> j < 30 ->
  layer_radius size j <= layer_radius size i \/ layer_radius size j <= 0.
Proof.
  intros Hi Hij Hj. rewrite !layer_radius_of.
  destruct (Z_le_gt_dec 0 (max_radius size)) as [H|H].
  - left. apply radius_of_mono_layer; assumption.
  - right. apply radius_of_negative; lia.
Qed.

Lemma background_loop_seqZ size (n : nat) (a : Z) :
  0 <= a -> a + Z.of_nat n <= 30 ->
  background_loop size (seqZ a (Z.of_nat n))
  = map (layer_call size) (List.filter (layer_drawn size) (seqZ a (Z.of_nat n))).
Proof.
  revert a. induction n as [|n IH]; intros a Ha Hn; [reflexivity|].
  rewrite (seqZ_cons a (Z.of_nat (S n))) by lia.
  replace (Z.pred (Z.of_nat (S n))) with (Z.of_nat n) by lia.
  cbn [background_loop List.filter]. unfold layer_drawn at 1.
  destruct (layer_radius size a <=? 0) eqn:E.
  - apply Z.leb_le in E.
    replace (0 <? layer_radius size a) with false by (symmetry; apply Z.ltb_ge; exact E).
    assert (F : forall l, (forall j, In j l -> a <= j < 30) ->
                          List.filter (layer_drawn size) l = []).
    { induction l as [|j l IHl]; intros Hl; [reflexivity|]. cbn [List.filter].
      assert (Hj : a <= j < 30) by (apply Hl; left; reflexivity).
      unfold layer_drawn at 1.
      replace (0 <? layer_radius size j) with false.
      - apply IHl. intros k Hk. apply Hl. right. exact Hk.
      - symmetry. apply Z.ltb_ge.
        destruct (layer_radius_order size a j Ha ltac:(lia) ltac:(lia)); lia. }
    rewrite F; [reflexivity|]. intros j Hj. apply elem_of_seqZ_iff in Hj. lia.
  - replace (0 <? layer_radius size a) with true
      by (symmetry; apply Z.ltb_lt; apply Z.leb_gt in E; lia).
    cbn [map]. unfold layer_call at 1. f_equal. apply IH; lia.
Qed.

(** X11 (the [break] loses nothing): at every size the background loop
    draws exactly the layers whose radius is positive, in order: once a
    radius is not positive, no later one is, because the radii never grow
    from one layer to the next. *)
Theorem background_draws_positive_layers (size : Z) :
  background size
  = map (layer_call size) (List.filter (layer_drawn size) (seqZ 0 num_layers)).
Proof. unfold background. apply (background_loop_seqZ size 30 0); lia. Qed.

Lemma filter_all {A} (f : A -> bool) (l : list A) :
  (forall x, In x l -> f x = true) -> List.filter f l = l.
Proof.
  induction l as [|a l IH]; intros H; [reflexivity|]. cbn [List.filter].
  rewrite (H a (or_introl eq_refl)). f_equal. apply IH. intros x Hx. apply H. right. exact Hx.
Qed.

(** X12 (how many layers): all thirty layers are drawn exactly when the
    size is at least 44.  At sizes 42 and 43, [max_radius] is 30 and the
    radius of layer 29, [int(30 * (1 - 29/30))], is 0: the product is just
    below 1 in binary64, and the loop stops after 29 layers. *)
Theorem all_layers_drawn_iff (size : Z) :
  length (background size) = 30%nat <-> 44 <= size.
Proof.
  unfold background. change num_layers with (Z.of_nat 30).
  rewrite (background_loop_seqZ size 30 0) by lia.
  change (Z.of_nat 30) with 30. rewrite length_map. split.
  - intros H. destruct (Z_le_gt_dec 44 size) as [L|G]; [exact L|exfalso].
    assert (M : max_radius size <= 30).
    { pose proof (max_radius_mono size 43 ltac:(lia)) as K.
      replace (max_radius 43) with 30 in K by (vm_compute; reflexivity). exact K. }
    assert (R : layer_radius size 29 <= 0).
    { rewrite layer_radius_of.
      pose proof (radius_of_mono_size _ 30 29 M ltac:(lia)) as K.
      replace (radius_of 30 29) with 0 in K by (vm_compute; reflexivity). exact K. }
    change (seqZ 0 30) with (seqZ 0 29 ++ [29]) in H.
    rewrite List.filter_app, length_app in H. cbn [List.filter] in H.
    unfold layer_drawn at 2 in H.
    replace (0 <? layer_radius size 29) with false in H by (symmetry; apply Z.ltb_ge; exact R).
    pose proof (List.filter_length_le (layer_drawn size) (seqZ 0 29)) as K.
    rewrite length_seqZ in K. cbn [length] in H. lia.
  - intros H. rewrite filter_all; [reflexivity|].
    intros i Hi. apply elem_of_seqZ_iff in Hi.
    unfold layer_drawn. apply Z.ltb_lt.
    assert (M : 31 <= max_radius size).
    { pose proof (max_radius_mono 44 size H) as K.
      replace (max_radius 44) with 31 in K by (vm_compute; reflexivity). exact K. }
    rewrite layer_radius_of.
    pose proof (radius_of_mono_layer (max_radius size) i 29 ltac:(lia) ltac:(lia)
                  ltac:(lia) ltac:(lia)) as K1.
    pose proof (radius_of_mono_size 31 _ 29 M ltac:(lia)) as K2.
    replace (radius_of 31 29) with 1 in K2 by (vm_compute; reflexivity). lia.
Qed.

Lemma first_layer_radius size :
  Z.abs (max_radius size) < 2 ^ 53 -> layer_radius size 0 = max_radius size.
Proof.
  intros H. rewrite layer_radius_of. unfold radius_of.
  replace (shrink 0) with 1%Q by (vm_compute; reflexivity).
  rewrite of_int_exact by exact H. unfold fmul.
  rewrite (rnd_wd (inject_Z (max_radius size) * 1) (inject_Z (max_radius size))) by ring.
  rewrite rnd_Z by exact H. apply to_int_Z.
Qed.

Lemma max_radius_lower size :
  0 <= size <= INT_MAX -> 7 * size / 10 <= max_radius size.
Proof.
  intros Hs. unfold max_radius. apply to_int_ge_Z.
  assert (Hz : 0 <= 7 * size / 10 <= size).
  { clear - Hs. unfold INT_MAX in Hs. Z.div_mod_to_equations. lia. }
  apply rnd_ge_Z; [unfold INT_MAX in Hs; lia|].
  rewrite of_int_exact by (unfold INT_MAX in Hs; lia).
  assert (C : (7 # 10 <= c072)%Q) by (apply Qle_bool_iff; vm_compute; reflexivity).
  assert (F : (inject_Z (7 * size / 10) <= inject_Z size * (7 # 10))%Q).
  { assert (K : 10 * (7 * size / 10) <= 7 * size)
      by (clear; Z.div_mod_to_equations; lia).
    rewrite Zle_Qle in K. rewrite !inject_Z_mult in K.
    change (inject_Z 10) with 10%Q in K. change (inject_Z 7) with 7%Q in K. lra. }
  assert (P : (0 <= inject_Z size)%Q)
    by (change 0%Q with (inject_Z 0); rewrite <- Zle_Qle; lia).
  nra.
Qed.

(** X13 (the outermost circle overflows the canvas): from size 2 on, the
    first layer is drawn and its bounding box reaches past the last column
    and row of the canvas; from size 5 on it also starts before the first
    ones.  Unlike the curve, the background relies on Pillow clipping the
    drawing to the image. *)
Theorem first_layer_overflows_canvas (size : Z) :
  2 <= size <= INT_MAX ->
  let '(x0, y0, x1, y1) := layer_box size 0 in
  0 < layer_radius size 0
  /\ size <= x1 /\ size <= y1
  /\ (5 <= size -> x0 < 0 /\ y0 < 0).
Proof.
  intros Hs. unfold layer_box. cbv zeta.
  pose proof (max_radius_lower size ltac:(lia)) as L.
  pose proof (max_radius_mono size INT_MAX ltac:(lia)) as U.
  replace (max_radius INT_MAX) with 1546188225 in U by (vm_compute; reflexivity).
  assert (L0 : 0 <= 7 * size / 10) by (clear - Hs; Z.div_mod_to_equations; lia).
  rewrite first_layer_radius by lia. unfold center.
  clear U. unfold INT_MAX in Hs. Z.div_mod_to_equations. lia.
Qed.

(** X13, witness: the default size. *)
Lemma first_layer_overflows_canvas_witness :
  let '(x0, y0, x1, y1) := layer_box 1024 0 in
  0 < layer_radius 1024 0
  /\ 1024 <= x1 /\ 1024 <= y1
  /\ (5 <= 1024 -> x0 < 0 /\ y0 < 0).
Proof. apply (first_layer_overflows_canvas 1024). unfold INT_MAX. lia. Defined.

(** ** Layer colours *)

Lemma ratio_mono i j :
  i <= j -> (int_truediv i num_layers <= int_truediv j num_layers)%Q.
Proof.
  intros H. unfold int_truediv. apply rnd_mono. unfold num_layers, Qdiv.
  apply Qmult_le_compat_r; [rewrite <- Zle_Qle; exact H | vm_compute; discriminate].
Qed.

Lemma channel_up (a d : Z) (r1 r2 : Q) :
  0 <= d -> (r1 <= r2)%Q ->
  to_int (fadd (of_int a) (fmul (of_int d) r1)) <= to_int (fadd (of_int a) (fmul (of_int d) r2)).
Proof.
  intros Hd H. apply to_int_mono, fadd_mono; [apply Qle_refl|]. apply fmul_mono_r; [|exact H].
  unfold of_int. apply rnd_nonneg. change 0%Q with (inject_Z 0). rewrite <- Zle_Qle. exact Hd.
Qed.

Lemma channel_down (a d : Z) (r1 r2 : Q) :
  d <= 0 -> (r1 <= r2)%Q ->
  to_int (fadd (of_int a) (fmul (of_int d) r2)) <= to_int (fadd (of_int a) (fmul (of_int d) r1)).
Proof.
  intros Hd H. apply to_int_mono, fadd_mono; [apply Qle_refl|]. apply rnd_mono.
  assert (D : (of_int d <= 0)%Q).
  { unfold of_int. apply rnd_nonpos. change 0%Q with (inject_Z 0). rewrite <- Zle_Qle. exact Hd. }
  nra.
Qed.

(** X14 (the gradient): from a layer to any later one the red and the blue
    channel never decrease and the green channel never increases, and all
    stay between the colour of layer 0, (99, 102, 241), and that of layer
    29, (137, 92, 245): every channel is a valid byte, and the end colour
    (139, 92, 246) of the gradient is never reached. *)
Theorem layer_colors_monotone (i j : Z) :
  0 <= i -> i <= j -> j < num_layers ->
  let '(r1, g1, b1) := layer_color i in
  let '(r2, g2, b2) := layer_color j in
  (99 <= r1 /\ r1 <= r2 /\ r2 <= 137)
  /\ (92 <= g2 /\ g2 <= g1 /\ g1 <= 102)
  /\ (241 <= b1 /\ b1 <= b2 /\ b2 <= 245).
Proof.
  intros Hi Hij Hj. unfold num_layers in Hj.
  pose proof (ratio_mono 0 i Hi) as R0.
  pose proof (ratio_mono i j Hij) as R1.
  pose proof (ratio_mono j 29 ltac:(lia)) as R2.
  assert (E0 : layer_color 0 = (99, 102, 241)) by (vm_compute; reflexivity).
  assert (E29 : layer_color 29 = (137, 92, 245)) by (vm_compute; reflexivity).
  unfold layer_color in *. cbv zeta in *.
  apply pair_equal_spec in E0 as [E0 B0]. apply pair_equal_spec in E0 as [A0 G0].
  apply pair_equal_spec in E29 as [E29 B29]. apply pair_equal_spec in E29 as [A29 G29].
  pose proof (channel_up 99 (139 - 99) _ _ ltac:(lia) R0).
  pose proof (channel_up 99 (139 - 99) _ _ ltac:(lia) R1).
  pose proof (channel_up 99 (139 - 99) _ _ ltac:(lia) R2).
  pose proof (channel_down 102 (92 - 102) _ _ ltac:(lia) R0).
  pose proof (channel_down 102 (92 - 102) _ _ ltac:(lia) R1).
  pose proof (channel_down 102 (92 - 102) _ _ ltac:(lia) R2).
  pose proof (channel_up 241 (246 - 241) _ _ ltac:(lia) R0).
  pose proof (channel_up 241 (246 - 241) _ _ ltac:(lia) R1).
  pose proof (channel_up 241 (246 - 241) _ _ ltac:(lia) R2).
  lia.
Qed.

(** X14, witness: layers 3 and 20. *)
Lemma layer_colors_monotone_witness :
  let '(r1, g1, b1) := layer_color 3 in
  let '(r2, g2, b2) := layer_color 20 in
  (99 <= r1 /\ r1 <= r2 /\ r2 <= 137)
  /\ (92 <= g2 /\ g2 <= g1 /\ g1 <= 102)
  /\ (241 <= b1 /\ b1 <= b2 /\ b2 <= 245).
Proof. apply (layer_colors_monotone 3 20); unfold num_layers; lia. Defined.

(** ** The colours of the rendered image *)

Lemma draw_all_pixel painted img calls x y :
  im_px (draw_all painted img calls) x y = im_px img x y
  \/ exists call, In call calls /\ im_px (draw_all painted img calls) x y = snd call.
Proof.
  revert img. induction calls as [|c calls IH]; intros img; [left; reflexivity|].
  change (draw_all painted img (c :: calls))
    with (draw_all painted (ellipse painted img (fst c) (snd c)) calls).
  destruct (IH (ellipse painted img (fst c) (snd c))) as [E|(call & Hc & E)].
  - rewrite E. cbn [ellipse im_px].
    destruct (in_image img x y && painted (fst c) x y).
    + right. exists c. split; [left; reflexivity | reflexivity].
    + left. reflexivity.
  - right. exists call. split; [right; exact Hc | exact E].
Qed.

Lemma in_background_loop size l call :
  In call (background_loop size l) ->
  exists i, In i l /\ call = (layer_box size i, layer_color i).
Proof.
  induction l as [|i l IH]; cbn [background_loop]; [intros []|].
  destruct (layer_radius size i <=? 0); [intros []|]. intros [<-|H].
  - exists i. split; [left; reflexivity | reflexivity].
  - destruct (IH H) as (k & Hk & E). exists k. split; [right; exact Hk | exact E].
Qed.

(** X15 (the palette): at every size, and whatever pixels Pillow paints
    for an ellipse, every pixel of the rendered image has the base colour,
    the colour of one of the thirty layers, or white. *)
Theorem render_palette sin cos painted (size x y : Z) :
  palette (im_px (render sin cos painted
                    (Image RGB size size (fun _ _ => base_fill)) size) x y).
Proof.
  unfold render.
  destruct (draw_all_pixel painted
              (draw_all painted (Image RGB size size (fun _ _ => base_fill))
                 (background size))
              (draw_elegant_curve sin cos size) x y) as [E|(call & Hc & E)].
  - rewrite E.
    destruct (draw_all_pixel painted (Image RGB size size (fun _ _ => base_fill))
                (background size) x y) as [E'|(call & Hc & E')]; rewrite E'.
    + left. reflexivity.
    + right. right. destruct (in_background_loop _ _ _ Hc) as (i & Hi & ->).
      apply elem_of_seqZ_iff in Hi. exists i. split; [lia | reflexivity].
  - rewrite E. right. left.
    destruct (curve_calls_are_strokes size (points sin cos size) call Hc)
      as (x' & y' & w & ->). reflexivity.
Qed.

(** ** The curve at the default size *)

Lemma flat_map_length_const {A B} (f : A -> list B) (l : list A) (k : nat) :
  (forall a, In a l -> length (f a) = k) -> length (flat_map f l) = (k * length l)%nat.
Proof.
  induction l as [|a l IH]; intros H; cbn [flat_map length]; [lia|].
  rewrite length_app, (H a (or_introl eq_refl)), IH by (intros b Hb; apply H; right; exact Hb).
  lia.
Qed.

Lemma curve_length size (pts : list (Z * Z)) :
  (forall i, 0 <= i < len pts - 1 -> steps (item pts i) (item pts (i + 1)) = 8) ->
  length (sample_circles size pts ++ connect_circles size pts)
  = (Z.to_nat (len pts) + 7 * Z.to_nat (len pts - 1))%nat.
Proof.
  intros H. rewrite length_app. f_equal.
  - unfold sample_circles. rewrite length_map, length_seqZ. reflexivity.
  - unfold connect_circles. rewrite (flat_map_length_const _ _ 7).
    + rewrite length_seqZ. reflexivity.
    + intros i Hi. apply elem_of_seqZ_iff in Hi. unfold segment_circles.
      rewrite length_map, length_seqZ, (H i) by lia. reflexivity.
Qed.

(** X16 (the default size never needs more than the minimum of steps): at
    size 1024, on a platform with an accurate sine and cosine, every
    segment between consecutive samples gets exactly 8 steps, the minimum
    of [max(int(length / 4), 8)], so the curve is drawn with
    150 + 149 * 7 = 1193 calls of [draw.ellipse]. *)
Theorem default_curve_calls sin cos :
  libm_accurate sin cos ->
  (forall i, 0 <= i < 149 ->
     steps (item (points sin cos 1024) i) (item (points sin cos 1024) (i + 1)) = 8)
  /\ length (draw_elegant_curve sin cos 1024) = 1193%nat.
Proof.
  intros A.
  assert (S8 : forall i, 0 <= i < 149 ->
     steps (item (points sin cos 1024) i) (item (points sin cos 1024) (i + 1)) = 8).
  { intros i Hi. rewrite (points_agree sin cos 1024 ltac:(lia) pinned_1024 A).
    pose proof segment_table as T. cbv zeta in T.
    pose proof (forallb_seqZ _ _ _ T i ltac:(lia)) as K. cbv beta in K.
    apply Z.eqb_eq in K. exact K. }
  split; [exact S8|].
  pose proof (curve_length 1024 (points sin cos 1024)) as L.
  rewrite (points_length sin cos 1024) in L. exact (L S8).
Qed.

(** X16, witness: the model platform. *)
Lemma default_curve_calls_witness :
  length (draw_elegant_curve Libm.sin_model Libm.cos_model 1024) = 1193%nat.
Proof. apply (default_curve_calls Libm.sin_model Libm.cos_model model_is_accurate). Defined.
